(** * NCGL: the Noisy Complex Ginzburg-Landau solver of [NCGL.py]

    A shallow embedding of the class [NCGL]: the reaction term, the two noise
    interpolators, the pseudospectral time derivative and the adaptive
    Runge-Kutta-Fehlberg driver, followed by the properties the specification
    states about them.

    The Python code computes with binary64 numbers.  Every function below is
    written once, over an interface [Num] of the arithmetic the source uses,
    and read at two instances: the real numbers (the arithmetic the floats
    approximate, where the general statements are proved) and Rocq's
    primitive binary64 floats (the arithmetic the interpreter performs, where
    concrete runs are evaluated). *)

From Stdlib Require Import String.
From Stdlib Require Import PrimFloat FloatOps SpecFloat.
From Stdlib Require Import ZArith Reals Lra Lia List Bool Sorted.
Import ListNotations.

Set Implicit Arguments.

(** ** Python exceptions *)

Inductive exn : Type :=
| IndexError
| ValueError
| TypeError
| OverflowError
| ZeroDivisionError
| NoiseError.

Inductive Exc (A : Type) : Type :=
| Ok (a : A)
| Raise (e : exn).

Arguments Ok {A} a.
Arguments Raise {A} e.

Definition bindE {A B : Type} (m : Exc A) (k : A -> Exc B) : Exc B :=
  match m with
  | Ok a => k a
  | Raise e => Raise e
  end.

Declare Scope exc_scope.
Delimit Scope exc_scope with exc.
Notation "x <- m ;; k" := (bindE m (fun x => k))
  (at level 61, m at next level, right associativity) : exc_scope.
Notation "' pat <- m ;; k" := (bindE m (fun x => match x with pat => k end))
  (at level 61, pat pattern, m at next level, right associativity) : exc_scope.

Definition is_ok {A : Type} (m : Exc A) : bool :=
  match m with Ok _ => true | Raise _ => false end.

(** ** The arithmetic of the source *)

(** [ofZ] is the conversion of a Python int to a float; [floorZ x] is
    [int(np.floor(x))], [ceilZ x] is [int(np.ceil(x))] and [truncZ x] is
    [int(x)], which raise on NaN and on the infinities; [pow_quarter x] is
    [x ** .25]; [pi] is [np.pi]. *)
Class Num (F : Type) : Type := {
  ofZ : Z -> F;
  add : F -> F -> F;
  sub : F -> F -> F;
  mul : F -> F -> F;
  div : F -> F -> F;
  neg : F -> F;
  fabs : F -> F;
  fsqrt : F -> F;
  pow_quarter : F -> F;
  pi : F;
  ltb : F -> F -> bool;
  leb : F -> F -> bool;
  eqb : F -> F -> bool;
  floorZ : F -> Exc Z;
  ceilZ : F -> Exc Z;
  truncZ : F -> Exc Z
}.

Declare Scope num_scope.
Delimit Scope num_scope with num.
Notation "x + y" := (add x y) : num_scope.
Notation "x - y" := (sub x y) : num_scope.
Notation "x * y" := (mul x y) : num_scope.
Notation "x / y" := (div x y) : num_scope.
Notation "- x" := (neg x) : num_scope.

Section Numbers.
Context {F : Type} {NF : Num F}.

Definition zero : F := ofZ 0.
Definition one : F := ofZ 1.

(** [x ** 2] on a float. *)
Definition sq (x : F) : F := (x * x)%num.

(** [isnan]: the only value that differs from itself. *)
Definition isnan (x : F) : bool := negb (eqb x x).

(** numpy's [maximum] on two floats: the first operand wins when it is
    the larger one or a NaN. *)
Definition fmax (a b : F) : F := if leb b a || isnan a then a else b.

(** A literal [p/q] of the source, a true division of two Python ints;
    also the decimal literals: [1e-15] is [ratio 1 (10^15)]. *)
Definition ratio (p q : Z) : F := (ofZ p / ofZ q)%num.
End Numbers.

(** ** Complex numbers *)

Record complex (F : Type) : Type := mkC { re : F; im : F }.
Arguments mkC {F} re im.
Arguments re {F} c.
Arguments im {F} c.

Declare Scope cx_scope.
Delimit Scope cx_scope with C.

Section Complex.
Context {F : Type} {NF : Num F}.

(** A real operand of a complex operation is first promoted. *)
Definition RtoC (x : F) : complex F := mkC x zero.

(** The literal [1j]. *)
Definition Ci : complex F := mkC zero one.

Definition Cadd (a b : complex F) : complex F :=
  mkC (re a + re b)%num (im a + im b)%num.

Definition Csub (a b : complex F) : complex F :=
  mkC (re a - re b)%num (im a - im b)%num.

Definition Cmul (a b : complex F) : complex F :=
  mkC (re a * re b - im a * im b)%num (re a * im b + im a * re b)%num.

(** numpy's complex division (Smith's method); a zero divisor divides
    both parts by the zero magnitude. *)
Definition Cdiv (a b : complex F) : complex F :=
  let br := fabs (re b) in
  let bi := fabs (im b) in
  if leb bi br then
    if eqb br zero && eqb bi zero then
      mkC (re a / br)%num (im a / br)%num
    else
      let rat := (im b / re b)%num in
      let scl := (one / (re b + im b * rat))%num in
      mkC ((re a + im a * rat) * scl)%num ((im a - re a * rat) * scl)%num
  else
    let rat := (re b / im b)%num in
    let scl := (one / (im b + re b * rat))%num in
    mkC ((re a * rat + im a) * scl)%num ((im a * rat - re a) * scl)%num.

(** [np.abs] of a complex number. *)
Definition Cabs (a : complex F) : F := fsqrt (sq (re a) + sq (im a))%num.

Definition Czero : complex F := mkC zero zero.
End Complex.

Notation "x + y" := (Cadd x y) : cx_scope.
Notation "x - y" := (Csub x y) : cx_scope.
Notation "x * y" := (Cmul x y) : cx_scope.
Notation "x / y" := (Cdiv x y) : cx_scope.

(** ** Arrays *)

(** A two-dimensional array is a list of rows. *)
Definition grid (A : Type) : Type := list (list A).

(** Indexing with a Python int: a negative index counts from the end, an
    index outside [-len, len) raises [IndexError]. *)
Definition py_index {A : Type} (l : list A) (i : Z) : Exc A :=
  let n := Z.of_nat (length l) in
  let j := if (i <? 0)%Z then (i + n)%Z else i in
  if ((0 <=? j) && (j <? n))%Z then
    match nth_error l (Z.to_nat j) with
    | Some a => Ok a
    | None => Raise IndexError
    end
  else Raise IndexError.

Fixpoint zipWith {A B C : Type} (f : A -> B -> C) (l : list A) (m : list B)
  : list C :=
  match l, m with
  | a :: l', b :: m' => f a b :: zipWith f l' m'
  | _, _ => []
  end.

Definition gmap {A B : Type} (f : A -> B) (g : grid A) : grid B :=
  map (map f) g.

Definition gzip {A B C : Type} (f : A -> B -> C) (g : grid A) (h : grid B)
  : grid C :=
  zipWith (zipWith f) g h.

(** [range(a, b)] over the integers, [len] elements from [a]. *)
Fixpoint zrange (a : Z) (len : nat) : list Z :=
  match len with
  | O => []
  | S k => a :: zrange (a + 1) k
  end.

(** The operations numpy applies elementwise to a slice of a buffer,
    whatever its rank: a float, a complex number, or an array of them. *)
Class Elem (F S : Type) : Type := {
  e_add : S -> S -> S;
  e_sub : S -> S -> S;
  e_scale : F -> S -> S;   (* float * slice *)
  e_rmul : S -> F -> S;    (* slice * float *)
  e_rdiv : S -> F -> S     (* slice / float *)
}.

#[export] Instance Elem_real {F : Type} {NF : Num F} : Elem F F := {
  e_add := add;
  e_sub := sub;
  e_scale := mul;
  e_rmul := mul;
  e_rdiv := div
}.

#[export] Instance Elem_complex {F : Type} {NF : Num F} : Elem F (complex F) := {
  e_add := Cadd;
  e_sub := Csub;
  e_scale := fun x z => Cmul (RtoC x) z;
  e_rmul := fun z x => Cmul z (RtoC x);
  e_rdiv := fun z x => Cdiv z (RtoC x)
}.

#[export] Instance Elem_list {F S : Type} {ES : Elem F S} : Elem F (list S) := {
  e_add := zipWith e_add;
  e_sub := zipWith e_sub;
  e_scale := fun x => map (e_scale x);
  e_rmul := fun l x => map (fun s => e_rmul s x) l;
  e_rdiv := fun l x => map (fun s => e_rdiv s x) l
}.

(** ** The numpy functions the source calls *)

Section Numpy.
Context {F : Type} {NF : Num F}.

Local Open Scope exc_scope.

(** [np.linspace(0, 1, num)]: [arange(num) * step + start] with
    [step = (stop - start) / (num - 1)], the last sample overwritten by
    [stop]; a single sample is [start]. *)
Definition np_linspace01 (num : nat) : list F :=
  let start := zero in
  let stop := one in
  let delta := (stop - start)%num in
  match num with
  | O => []
  | S O => [(ofZ 0 * delta + start)%num]
  | S k =>
      let step := (delta / ofZ (Z.of_nat k))%num in
      map (fun i => (ofZ i * step + start)%num) (zrange 0 k) ++ [stop]
  end.

(** The interior samples of [np.gradient] on unit spacing: central
    differences over [2.]. *)
Fixpoint gradient_interior {S : Type} {ES : Elem F S} (f : list S) : list S :=
  match f with
  | a :: tl =>
      match tl with
      | _ :: c :: _ => e_rdiv (e_sub c a) (ofZ 2) :: gradient_interior tl
      | _ => []
      end
  | [] => []
  end.

(** [np.gradient] along the first axis (unit spacing, first-order edges);
    fewer than two samples raise [ValueError]. *)
Definition np_gradient {S : Type} {ES : Elem F S} (f : list S) : Exc (list S) :=
  match f, rev f with
  | a :: b :: _, z :: y :: _ =>
      Ok (e_rdiv (e_sub b a) one
            :: gradient_interior f ++ [e_rdiv (e_sub z y) one])
  | _, _ => Raise ValueError
  end.

(** [g, _, _ = np.gradient(f)] on a three-dimensional array: the gradient
    along the frame axis is kept, the gradients along the two grid axes
    are computed and dropped, and each axis needs two samples. *)
Definition np_gradient_frames (f : list (grid F)) : Exc (list (grid F)) :=
  g <- np_gradient f ;;
  let rows := length (hd [] f) in
  let cols := length (hd [] (hd [] f)) in
  if (rows <? 2)%nat || (cols <? 2)%nat then Raise ValueError else Ok g.

(** [np.max] of a two-dimensional array; an empty array raises. *)
Definition np_max (g : grid F) : Exc F :=
  match concat g with
  | [] => Raise ValueError
  | x :: xs => Ok (fold_left fmax xs x)
  end.

(** [numpy.fft.fftfreq(n)]: the integers [0 .. (n-1)//2, -(n//2) .. -1]
    times [1.0/(n*1.0)]. *)
Definition np_fftfreq (n : nat) : Exc (list F) :=
  if (n =? 0)%nat then Raise ZeroDivisionError
  else
    let val := (one / (ofZ (Z.of_nat n) * one))%num in
    let N := ((n - 1) / 2 + 1)%nat in
    Ok (map (fun k => (ofZ k * val)%num)
            (zrange 0 N ++ zrange (- Z.of_nat (n / 2)) (n / 2))).
End Numpy.

(** ** SimulationConfig: the fields [__init__] stores *)

Record NCGL (F : Type) : Type := mkNCGL {
  c1 : F;
  c2 : F;
  a0 : F;
  h : F;
  ic : string;
  msize : Z;
  dim : Z;
  sigma_r : F;
  noiseType : string;
  noiseSpeed : F;
  noiseArgs : list (string * F)
}.

Section Model.
Context {F : Type} {NF : Num F}.

Local Open Scope exc_scope.


(** The lookup [d[key]] guarded by [key in d]. *)
Fixpoint dict_get (d : list (string * F)) (key : string) : option F :=
  match d with
  | [] => None
  | (k, v) :: d' => if String.eqb k key then Some v else dict_get d' key
  end.

(** *** reaction *)

(** [a - (1+1j*self.c2)*(np.abs(a)**2)*a] on one amplitude; [t] is not
    used. *)
Definition reaction_scalar (self : NCGL F) (a : complex F) (t : F) : complex F :=
  (a - (RtoC one + Ci * RtoC (c2 self)) * RtoC (sq (Cabs a)) * a)%C.

(** The same expression on a grid: numpy applies it cell by cell. *)
Definition reaction (self : NCGL F) (a : grid (complex F)) (t : F)
  : grid (complex F) :=
  gmap (fun z => reaction_scalar self z t) a.

(** *** __interpolate1D *)

Definition interpolate1D (noise : list (complex F)) (t : F) : Exc (complex F) :=
  p1 <- floorZ t ;;
  p2 <- ceilZ t ;;
  if (p1 =? p2)%Z then py_index noise p1
  else
    n1 <- py_index noise p1 ;;
    n2 <- py_index noise p2 ;;
    let d := RtoC (ofZ (Z.abs (p1 - p2))) in
    Ok (n1 * RtoC (fabs (t - ofZ p1)%num) / d
        + n2 * RtoC (fabs (t - ofZ p2)%num) / d)%C.

(** *** interpolateNoise *)

(** [nr1] is the rate view and [nr2] the raw view of the noise buffer,
    both fields of [self] set by the solver; [S] is the type of one frame. *)
Definition interpolateNoise {S : Type} {ES : Elem F S}
    (nr1 nr2 : list S) (time : F) : Exc (S * S) :=
  let frames := length nr1 in
  let t := np_linspace01 frames in
  let x := (ofZ (Z.of_nat frames - 1) * time)%num in
  p1 <- floorZ x ;;
  p2 <- ceilZ x ;;
  t1 <- py_index t p1 ;;
  t2 <- py_index t p2 ;;
  mr1 <- py_index nr1 p1 ;;
  mr2 <- py_index nr1 p2 ;;
  md1 <- py_index nr2 p1 ;;
  md2 <- py_index nr2 p2 ;;
  if ltb (fabs (t1 - t2)%num) (ratio 1 (10 ^ 15)) then Ok (mr1, md1)
  else
    let w1 := fabs (t1 - time)%num in
    let w2 := fabs (t2 - time)%num in
    let d := fabs (t2 - t1)%num in
    Ok (e_add (e_rdiv (e_scale w1 mr1) d) (e_rdiv (e_scale w2 mr2) d),
        e_add (e_rdiv (e_scale w1 md1) d) (e_rdiv (e_scale w2 md2) d)).
End Model.

(** ** The collaborators outside the repository *)

(** [numpy.fft.fftn] and [ifftn] on a two-dimensional complex array, the
    generator [np.random.rand] and the coloured-noise generator
    [cNoise.cNoise] at the two shapes the source requests.  The generators
    are stateful: their first argument is the number of draws the run has
    made before the call. *)
Record Externals (F : Type) : Type := mkExternals {
  fftn : grid (complex F) -> grid (complex F);
  ifftn : grid (complex F) -> grid (complex F);
  rand : nat -> nat -> list F;
  cNoise1 : nat -> F -> Z -> F -> Exc (list F);
  cNoise3 : nat -> F -> Z * Z * Z -> F -> Exc (list (grid F))
}.

(** What a run has asked of the generators so far, oldest first. *)
Inductive event : Type :=
| EvRand (n : nat)
| EvNoise (shape : list Z).

(** A computation that may draw from the generators and may raise. *)
Definition M (A : Type) : Type := list event -> Exc A * list event.

Definition retM {A : Type} (a : A) : M A := fun log => (Ok a, log).

Definition bindM {A B : Type} (m : M A) (k : A -> M B) : M B :=
  fun log =>
    match m log with
    | (Ok a, log') => k a log'
    | (Raise e, log') => (Raise e, log')
    end.

Definition liftM {A : Type} (m : Exc A) : M A := fun log => (m, log).

Declare Scope m_scope.
Delimit Scope m_scope with M.
Notation "x <- m ;; k" := (bindM m (fun x => k))
  (at level 61, m at next level, right associativity) : m_scope.

(** The fields [solveRKF45] stores on [self] for [timeDerivatives]. *)
Record Buffers (F : Type) : Type := mkBuffers {
  nr1 : list (grid F);
  nr2 : list (grid F);
  maxTime : F
}.

Section Spatial.
Context {F : Type} {NF : Num F}.
Variable ext : Externals F.


(** *** Initial conditions *)

(** [reshape((n, n))] of a flat array of [n*n] samples. *)
Fixpoint reshape_rows (l : list F) (rows cols : nat) : grid F :=
  match rows with
  | O => []
  | S r => firstn cols l :: reshape_rows (skipn cols l) r cols
  end.

(** [__getRandom(n, 2)]: [np.random.rand(n**2).reshape((n, n))]; a
    negative side is refused by [reshape], after the draw. *)
Definition getRandom (n : Z) : M (grid F) :=
  fun log =>
    let count := Z.to_nat (n ^ 2) in
    let flat := rand ext (length log) count in
    let log' := log ++ [EvRand count] in
    if (n <? 0)%Z then (Raise ValueError, log')
    else (Ok (reshape_rows flat (Z.to_nat n) (Z.to_nat n)), log').

(** [__getGaussian(n, 2)]: [np.zeros] refuses a negative side, and
    [np.sum] refuses the keyword [as_vs]. *)
Definition getGaussian (n : Z) : M (grid F) :=
  liftM (if (n <? 0)%Z then Raise ValueError else Raise TypeError).

Definition getInitialCondition (self : NCGL F) : M (grid (complex F)) :=
  let half := ratio 1 2 in
  if String.eqb (ic self) "r"%string then
    (r1 <- getRandom (msize self) ;;
     r2 <- getRandom (msize self) ;;
     retM (gzip (fun x y =>
                   RtoC (a0 self)
                   * (RtoC (x - half)%num + Ci * RtoC (y - half)%num))%C
                r1 r2))%M
  else
    (g1 <- getGaussian (msize self) ;;
     g2 <- getGaussian (msize self) ;;
     retM (gzip (fun x y => RtoC (a0 self) * (RtoC x + Ci * RtoC y))%C
                g1 g2))%M.

(** *** timeDerivatives *)

(** [-(fx[None,:]**2)*Ft - (fy[:,None]**2)*Ft]: [fx] runs along a row,
    [fy] down the rows. *)
Definition spectral_scale (fx fy : list F) (Ft : grid (complex F))
  : grid (complex F) :=
  zipWith (fun fyu row =>
             zipWith (fun fxv c =>
                        (RtoC (- sq fxv)%num * c - RtoC (sq fyu) * c)%C)
                     fx row)
          fy Ft.

(** [np.real(ifftn(...))] of the scaled transform of one component. *)
Definition spectral_part (fx fy : list F) (Ft : grid (complex F)) : grid F :=
  gmap re (ifftn ext (spectral_scale fx fy Ft)).

(** The local [lap]:
    [np.real(ifftn(..rFtState..)) + 1j*np.real(ifftn(..iFtState..))/(self.h**2)]. *)
Definition laplacian (self : NCGL F) (fx fy : list F)
    (rFtState iFtState : grid (complex F)) : grid (complex F) :=
  gzip (fun a b => (RtoC a + Ci * RtoC b / RtoC (sq (h self)))%C)
       (spectral_part fx fy rFtState)
       (spectral_part fx fy iFtState).

(** The last summand of the diffusive branch, on one cell:
    [self.sigma_r*lap*tnr2/np.abs(lap)]. *)
Definition diffusive_term (self : NCGL F) (l : complex F) (n : F) : complex F :=
  (RtoC (sigma_r self) * l * RtoC n / RtoC (Cabs l))%C.

(** [self.sigma_r*state*(tnr1 + 1j*tnr1)] on one cell. *)
Definition multiplicative_term (self : NCGL F) (s : complex F) (n : F)
  : complex F :=
  (RtoC (sigma_r self) * s * (RtoC n + Ci * RtoC n))%C.

(** [self.sigma_r*(tnr1 + 1j*tnr1)] on one cell. *)
Definition additive_term (self : NCGL F) (n : F) : complex F :=
  (RtoC (sigma_r self) * (RtoC n + Ci * RtoC n))%C.

(** The first lines of [timeDerivatives], up to the local [lap]: the
    frequency axes, the two transforms and their recombination. *)
Definition spectral_laplacian (self : NCGL F) (state : grid (complex F))
  : Exc (grid (complex F)) :=
  (fx0 <- np_fftfreq (length state) ;;
   fy0 <- np_fftfreq (length (hd [] state)) ;;
   let fx := map (fun v => (ofZ 2 * pi * v)%num) fx0 in
   let fy := map (fun v => (ofZ 2 * pi * v)%num) fy0 in
   let rFtState := fftn ext (gmap (fun z => RtoC (re z)) state) in
   let iFtState := fftn ext (gmap (fun z => RtoC (im z)) state) in
   Ok (laplacian self fx fy rFtState iFtState))%exc.

Definition timeDerivatives (self : NCGL F) (buf : Buffers F)
    (state : grid (complex F)) (time : F) : Exc (grid (complex F)) :=
  (lap <- spectral_laplacian self state ;;
   let normalizedTime := (time / maxTime buf)%num in
   tn <- interpolateNoise (nr1 buf) (nr2 buf) normalizedTime ;;
   let tnr1 := fst tn in
   let tnr2 := snd tn in
   let drift :=
     gzip Cadd
          (gmap (fun l => (RtoC one + RtoC (c1 self) * Ci) * l)%C lap)
          (reaction self state time) in
   if String.eqb (noiseType self) "diffusive"%string then
     Ok (gzip Cadd drift (gzip (diffusive_term self) lap tnr2))
   else if String.eqb (noiseType self) "multiplicative"%string then
     Ok (gzip Cadd drift (gzip (multiplicative_term self) state tnr1))
   else
     Ok (gzip Cadd drift (gmap (additive_term self) tnr1)))%exc.
End Spatial.

(** ** solveRKF45 *)

Section Solver.
Context {F : Type} {NF : Num F}.
Variable ext : Externals F.

(** The Fehlberg stage weights as the source writes them. *)
Definition w : grid F :=
  [ [ofZ 0; ofZ 0; ofZ 0; ofZ 0; ofZ 0; ofZ 0];
    [ratio 1 4; ofZ 0; ofZ 0; ofZ 0; ofZ 0; ofZ 0];
    [ratio 3 32; ratio 9 32; ofZ 0; ofZ 0; ofZ 0; ofZ 0];
    [ratio 1932 2197; ratio (-7200) 2197; ratio 7296 2197;
     ofZ 0; ofZ 0; ofZ 0];
    [ratio 439 216; ofZ (-8); ratio 3680 513; ratio (-845) 4104;
     ofZ 0; ofZ 0];
    [ratio (-8) 27; ofZ 2; ratio (-3544) 2565; ratio 1859 4104;
     ratio (-11) 40; ofZ 0] ].

(** [w[i,j]]; the source only uses indices inside the table. *)
Definition w_at (i j : nat) : F := nth j (nth i w []) zero.

(** The six stage increments of one pass. *)
Record Stages : Type := mkStages {
  k1 : grid (complex F);
  k2 : grid (complex F);
  k3 : grid (complex F);
  k4 : grid (complex F);
  k5 : grid (complex F);
  k6 : grid (complex F)
}.

Notation "a [+] b" := (e_add (F:=F) a b) (at level 50, left associativity).
Notation "a [-] b" := (e_sub (F:=F) a b) (at level 50, left associativity).
Notation "x [.*] a" := (e_scale (F:=F) x a) (at level 40, left associativity).
Notation "a [*.] x" := (e_rmul (F:=F) a x) (at level 40, left associativity).
Notation "a [/.] x" := (e_rdiv (F:=F) a x) (at level 40, left associativity).

Definition stages (self : NCGL F) (buf : Buffers F)
    (state : grid (complex F)) (t step : F) : Exc Stages :=
  let f := timeDerivatives ext self buf in
  (d1 <- f state t ;;
   let k1 := step [.*] d1 in
   d2 <- f (state [+] k1 [*.] w_at 1 0) (t + step / ofZ 4)%num ;;
   let k2 := step [.*] d2 in
   d3 <- f (state [+] k1 [*.] w_at 2 0 [+] k2 [*.] w_at 2 1)
           (t + ofZ 3 * step / ofZ 8)%num ;;
   let k3 := step [.*] d3 in
   d4 <- f (state [+] k1 [*.] w_at 3 0 [+] k2 [*.] w_at 3 1
                  [+] k3 [*.] w_at 3 2)
           (t + ofZ 12 * step / ofZ 13)%num ;;
   let k4 := step [.*] d4 in
   d5 <- f (state [+] k1 [*.] w_at 4 0 [+] k2 [*.] w_at 4 1
                  [+] k3 [*.] w_at 4 2 [+] k4 [*.] w_at 4 3)
           (t + step)%num ;;
   let k5 := step [.*] d5 in
   d6 <- f (state [+] k1 [*.] w_at 5 0 [+] k2 [*.] w_at 5 1
                  [+] k3 [*.] w_at 5 2 [+] k4 [*.] w_at 5 3
                  [+] k5 [*.] w_at 5 4)
           (t + step / ofZ 2)%num ;;
   let k6 := step [.*] d6 in
   Ok (mkStages k1 k2 k3 k4 k5 k6))%exc.

(** [state + (25/216)*k1 + (1408/2565)*k3 + (2197/4101)*k4 - k5/5] *)
Definition approach4 (state : grid (complex F)) (ks : Stages)
  : grid (complex F) :=
  state [+] ratio 25 216 [.*] k1 ks [+] ratio 1408 2565 [.*] k3 ks
        [+] ratio 2197 4101 [.*] k4 ks [-] k5 ks [/.] ofZ 5.

(** [state + (16/135)*k1 + (6656/12825)*k3 + (28561/56430)*k4
     - (9/50)*k5 + (2/55)*k6] *)
Definition approach5 (state : grid (complex F)) (ks : Stages)
  : grid (complex F) :=
  state [+] ratio 16 135 [.*] k1 ks [+] ratio 6656 12825 [.*] k3 ks
        [+] ratio 28561 56430 [.*] k4 ks [-] ratio 9 50 [.*] k5 ks
        [+] ratio 2 55 [.*] k6 ks.

(** [np.max(np.abs(approach4-approach5))] *)
Definition local_error (state : grid (complex F)) (ks : Stages) : Exc F :=
  np_max (gmap Cabs (approach4 state ks [-] approach5 state ks)).

(** The variables the loop of [solveRKF45] updates. *)
Record Loop : Type := mkLoop {
  l_state : grid (complex F);
  l_t : F;
  l_times : list F;
  l_states : list (grid (complex F))
}.

(** [time in stepsave] *)
Definition saved (stepsave : list Z) (time : nat) : bool :=
  existsb (Z.eqb (Z.of_nat time)) stepsave.

(** One iteration of [for time in range(ntimes)]. *)
Definition rkf_step (self : NCGL F) (buf : Buffers F) (dt dtTolerace : F)
    (stepsave : list Z) (time : nat) (l : Loop) : Exc Loop :=
  let state := l_state l in
  let t := l_t l in
  (ks <- stages self buf state t dt ;;
   error <- local_error state ks ;;
   accepted <-
     (if ltb dtTolerace error then
        let step :=
          (dt * pow_quarter (dtTolerace / (ofZ 2 * error)))%num in
        ks' <- stages self buf state t step ;;
        Ok (step, approach4 state ks')
      else Ok (dt, approach4 state ks)) ;;
   let step := fst accepted in
   let t' := (t + step)%num in
   let state' := snd accepted in
   Ok {| l_state := state';
         l_t := t';
         l_times := l_times l ++ [t'];
         l_states := if saved stepsave time
                     then l_states l ++ [state']
                     else l_states l |})%exc.

Fixpoint rkf_loop (self : NCGL F) (buf : Buffers F) (dt dtTolerace : F)
    (stepsave : list Z) (times : list nat) (l : Loop) : Exc Loop :=
  match times with
  | [] => Ok l
  | time :: rest =>
      (l' <- rkf_step self buf dt dtTolerace stepsave time l ;;
       rkf_loop self buf dt dtTolerace stepsave rest l')%exc
  end.

(** The request [cNoise.cNoise(beta, shape=(frames, msize, msize), std)]. *)
Definition request_noise3 (beta : F) (shape : Z * Z * Z) (std : F)
  : M (list (grid F)) :=
  fun log =>
    let '(a, b, c) := shape in
    (cNoise3 ext (length log) beta shape std, log ++ [EvNoise [a; b; c]]).

Definition solveRKF45 (self : NCGL F) (dt : F) (ntimes : nat)
    (stepsave : list Z) (dtTolerace : F)
  : M (list (grid (complex F)) * list F) :=
  (state <- getInitialCondition ext self ;;
   let exponent :=
     match dict_get (noiseArgs self) "beta" with
     | Some b => b
     | None => ofZ 2
     end in
   let std :=
     match dict_get (noiseArgs self) "std" with
     | Some s => s
     | None => ratio 1 100
     end in
   frames <- liftM (truncZ (noiseSpeed self * ofZ (Z.of_nat ntimes))%num) ;;
   noise <- request_noise3 exponent (frames, msize self, msize self) std ;;
   rate <- liftM (np_gradient_frames noise) ;;
   let buf := {| nr1 := rate; nr2 := noise;
                 maxTime := (ofZ (Z.of_nat ntimes + 2) * dt)%num |} in
   l <- liftM (rkf_loop self buf dt dtTolerace stepsave (seq 0 ntimes)
                 {| l_state := state; l_t := ofZ 0;
                    l_times := []; l_states := [state] |}) ;;
   retM (l_states l, l_times l))%M.
End Solver.

(** ** getNoisyChainedSingleReaction *)

Section SingleAmplitude.
Context {F : Type} {NF : Num F}.
Variable ext : Externals F.

(** [np.random.rand()]: one sample. *)
Definition rand_scalar : M F :=
  fun log => (Ok (hd zero (rand ext (length log) 1)), log ++ [EvRand 1]).

(** The request [cNoise.cNoise(beta=beta, shape=(n,), std=std)]. *)
Definition request_noise1 (beta : F) (n : Z) (std : F) : M (list F) :=
  fun log => (cNoise1 ext (length log) beta n std, log ++ [EvNoise [n]]).

(** The three sample positions of step [i]: [i], [i+0.5] and [i+1]. *)
Definition stage_offsets (i : Z) : F * F * F :=
  (ofZ i, (ofZ i + ratio 1 2)%num, ofZ (i + 1)).

(** One iteration of [for i in range(nit)], after [states.append(at)]:
    the four stages and the new amplitude. *)
Definition noisy_step (self : NCGL F) (eta : list (complex F)) (dt : F)
    (i : Z) (at_ : complex F) : Exc (complex F) :=
  let '(o1, o2, o3) := stage_offsets i in
  let t := (ofZ i * dt)%num in
  let th := (t + dt / ofZ 2)%num in
  let s := RtoC (sigma_r self) in
  let two := RtoC (ofZ 2) in
  let a2 (k : complex F) := (at_ + RtoC dt * k / two)%C in
  let a4 (k : complex F) := (at_ + RtoC dt * k)%C in
  let finish (k1 k2 k3 k4 : complex F) :=
    (at_ + RtoC dt * (k1 + two * k2 + two * k3 + k4) / RtoC (ofZ 6))%C in
  if String.eqb (noiseType self) "multiplicative"%string then
    (n1 <- interpolate1D eta o1 ;;
     let k1 := (reaction_scalar self at_ t + s * at_ * n1)%C in
     n2 <- interpolate1D eta o2 ;;
     let k2 := (reaction_scalar self (a2 k1) th + s * a2 k1 * n2)%C in
     n3 <- interpolate1D eta o2 ;;
     let k3 := (reaction_scalar self (a2 k2) th + s * a2 k2 * n3)%C in
     n4 <- interpolate1D eta o3 ;;
     let k4 :=
       (reaction_scalar self (a4 k3) (t + dt)%num + s * a4 k3 * n4)%C in
     Ok (finish k1 k2 k3 k4))%exc
  else
    (n1 <- interpolate1D eta o1 ;;
     let k1 := (reaction_scalar self at_ t + s * n1)%C in
     n2 <- interpolate1D eta o2 ;;
     let k2 := (reaction_scalar self (a2 k1) th + s * n2)%C in
     n3 <- interpolate1D eta o2 ;;
     let k3 := (reaction_scalar self (a2 k2) th + s * n3)%C in
     n4 <- interpolate1D eta o3 ;;
     let k4 := (reaction_scalar self (a4 k3) (t + dt)%num + s * n4)%C in
     Ok (finish k1 k2 k3 k4))%exc.

Fixpoint noisy_loop (self : NCGL F) (eta : list (complex F)) (dt : F)
    (steps : list Z) (at_ : complex F) (states : list (complex F))
  : Exc (list (complex F)) :=
  match steps with
  | [] => Ok states
  | i :: rest =>
      (at' <- noisy_step self eta dt i at_ ;;
       noisy_loop self eta dt rest at' (states ++ [at_]))%exc
  end.

Definition getNoisyChainedSingleReaction (self : NCGL F)
    (a0_arg : option (complex F)) (beta dt : F) (nit : nat)
  : M (list (complex F)) :=
  (r <- rand_scalar ;;
   let delta := (ratio 1 (10 ^ 6) * (r - ratio 1 2))%num in
   let at0 :=
     match a0_arg with
     | None => RtoC (a0 self + delta)%num
     | Some a => a
     end in
   let n := (Z.of_nat nit + 2)%Z in
   er <- request_noise1 beta n (ofZ 1) ;;
   ei <- request_noise1 beta n (ofZ 1) ;;
   let eta0 := zipWith (fun x y => (RtoC x + Ci * RtoC y)%C) er ei in
   eta <- liftM (np_gradient eta0) ;;
   liftM (noisy_loop self eta dt (zrange 0 nit) at0 []))%M.
End SingleAmplitude.

(** ** getChainedSingleReaction *)

Section PlainAmplitude.
Context {F : Type} {NF : Num F}.
Variable ext : Externals F.

(** One iteration of [for i in range(nit)], after [states.append(at)]:
    the four stages on the reaction term alone and the new amplitude. *)
Definition plain_step (self : NCGL F) (dt : F) (i : Z) (at_ : complex F)
  : complex F :=
  let t := (ofZ i * dt)%num in
  let th := (t + dt / ofZ 2)%num in
  let two := RtoC (ofZ 2) in
  let k1 := reaction_scalar self at_ t in
  let k2 := reaction_scalar self (at_ + RtoC dt * k1 / two)%C th in
  let k3 := reaction_scalar self (at_ + RtoC dt * k2 / two)%C th in
  let k4 := reaction_scalar self (at_ + RtoC dt * k3)%C (t + dt)%num in
  (at_ + RtoC dt * (k1 + two * k2 + two * k3 + k4) / RtoC (ofZ 6))%C.

Fixpoint plain_loop (self : NCGL F) (dt : F) (steps : list Z)
    (at_ : complex F) (states : list (complex F)) : list (complex F) :=
  match steps with
  | [] => states
  | i :: rest =>
      plain_loop self dt rest (plain_step self dt i at_) (states ++ [at_])
  end.

Definition getChainedSingleReaction (self : NCGL F)
    (a0_arg : option (complex F)) (dt : F) (nit : nat)
  : M (list (complex F)) :=
  (r <- rand_scalar ext ;;
   let delta := (ratio 1 (10 ^ 6) * (r - ratio 1 2))%num in
   let at0 :=
     match a0_arg with
     | None => RtoC (a0 self + delta)%num
     | Some a => a
     end in
   retM (plain_loop self dt (zrange 0 nit) at0 []))%M.
End PlainAmplitude.

(** ** The real numbers as arithmetic *)

Definition R_ltb (x y : R) : bool := if Rlt_dec x y then true else false.
Definition R_leb (x y : R) : bool := if Rle_dec x y then true else false.
Definition R_eqb (x y : R) : bool := if Req_dec_T x y then true else false.

Definition R_floor (x : R) : Z := Int_part x.
Definition R_ceil (x : R) : Z := (- Int_part (- x))%Z.
Definition R_trunc (x : R) : Z := if Rle_dec 0 x then R_floor x else R_ceil x.

#[export] Instance Num_R : Num R := {
  ofZ := IZR;
  add := Rplus;
  sub := Rminus;
  mul := Rmult;
  div := Rdiv;
  neg := Ropp;
  fabs := Rabs;
  fsqrt := sqrt;
  pow_quarter := fun x => sqrt (sqrt x);
  pi := PI;
  ltb := R_ltb;
  leb := R_leb;
  eqb := R_eqb;
  floorZ := fun x => Ok (R_floor x);
  ceilZ := fun x => Ok (R_ceil x);
  truncZ := fun x => Ok (R_trunc x)
}.

(** The discrete Fourier transform numpy documents for [fftn] and [ifftn]:
    [A[u,v] = sum_{j,k} a[j,k] exp(-/+ 2 pi i (u j / n0 + v k / n1))], the
    inverse divided by [n0 n1]. *)
Definition cis (theta : R) : complex R := mkC (cos theta) (sin theta).

Definition Csum (l : list (complex R)) : complex R :=
  fold_right Cadd Czero l.

Definition indexed {A : Type} (l : list A) : list (nat * A) :=
  combine (seq 0 (length l)) l.

Definition dft_entry (sign : R) (X : grid (complex R)) (u v : nat)
  : complex R :=
  let n0 := INR (length X) in
  let n1 := INR (length (hd [] X)) in
  Csum (map (fun jr =>
               Csum (map (fun kx =>
                            Cmul (snd kx)
                                 (cis (sign * 2 * PI
                                       * (INR u * INR (fst jr) / n0
                                          + INR v * INR (fst kx) / n1))))
                         (indexed (snd jr))))
            (indexed X)).

Definition dft2 (X : grid (complex R)) : grid (complex R) :=
  map (fun u => map (fun v => dft_entry (-1) X u v)
                    (seq 0 (length (hd [] X))))
      (seq 0 (length X)).

Definition idft2 (X : grid (complex R)) : grid (complex R) :=
  let n := (INR (length X) * INR (length (hd [] X)))%R in
  map (fun u => map (fun v => Cdiv (dft_entry 1 X u v) (RtoC n))
                    (seq 0 (length (hd [] X))))
      (seq 0 (length X)).

(** Stand-ins for the two generators: every uniform draw is [1/2] and the
    noise is a ramp in the frame index, [noise[f][j][k] = f]. *)
Definition const_grid {A : Type} (a : A) (rows cols : nat) : grid A :=
  repeat (repeat a cols) rows.

Definition ramp_noise3 (shape : Z * Z * Z) : Exc (list (grid R)) :=
  let '(f, r, c) := shape in
  if ((f <? 0) || (r <? 0) || (c <? 0))%Z then Raise ValueError
  else Ok (map (fun i => const_grid (IZR i) (Z.to_nat r) (Z.to_nat c))
               (zrange 0 (Z.to_nat f))).

Definition ramp_noise1 (n : Z) : Exc (list R) :=
  if (n <? 0)%Z then Raise ValueError
  else Ok (map IZR (zrange 0 (Z.to_nat n))).

Definition ext_R : Externals R := {|
  fftn := dft2;
  ifftn := idft2;
  rand := fun _ n => repeat (1 / 2)%R n;
  cNoise1 := fun _ _ n _ => ramp_noise1 n;
  cNoise3 := fun _ _ shape _ => ramp_noise3 shape
|}.

(** The weighted sum of two frames, cell by cell. *)
Definition blend (w1 w2 : R) (f1 f2 : grid R) : grid R :=
  gzip (fun a b => w1 * a + w2 * b)%R f1 f2.

(** ** Binary64 as arithmetic *)

Definition float_ofZ (z : Z) : float :=
  if (z <? 0)%Z then PrimFloat.opp (of_uint63 (Uint63Axioms.of_Z (- z)))
  else of_uint63 (Uint63Axioms.of_Z z).

(** The integer part of a finite float [(-1)^s m 2^e], rounded down, up or
    towards zero; [int] refuses NaN and the infinities. *)
Definition float_toZ (round : Z -> Z -> Z) (x : float) : Exc Z :=
  match Prim2SF x with
  | S754_nan => Raise ValueError
  | S754_infinity _ => Raise OverflowError
  | S754_zero _ => Ok 0%Z
  | S754_finite s m e =>
      let n := if s then Zneg m else Zpos m in
      if (0 <=? e)%Z then Ok (n * 2 ^ e)%Z else Ok (round n (2 ^ (- e))%Z)
  end.

Definition Zceil_div (n d : Z) : Z := (- ((- n) / d))%Z.

#[export] Instance Num_float : Num float := {
  ofZ := float_ofZ;
  add := PrimFloat.add;
  sub := PrimFloat.sub;
  mul := PrimFloat.mul;
  div := PrimFloat.div;
  neg := PrimFloat.opp;
  fabs := PrimFloat.abs;
  fsqrt := PrimFloat.sqrt;
  pow_quarter := fun x => PrimFloat.sqrt (PrimFloat.sqrt x);
  pi := 0x1.921fb54442d18p+1%float;
  ltb := PrimFloat.ltb;
  leb := PrimFloat.leb;
  eqb := PrimFloat.eqb;
  floorZ := float_toZ Z.div;
  ceilZ := float_toZ Zceil_div;
  truncZ := float_toZ Z.quot
}.

(** On a grid of side one the transform and its inverse are the identity;
    this is all of [numpy.fft] the binary64 runs below need. *)
Definition ext_float : Externals float := {|
  fftn := fun X => X;
  ifftn := fun X => X;
  rand := fun _ n => repeat 0.5%float n;
  cNoise1 := fun _ _ n _ =>
    if (n <? 0)%Z then Raise ValueError
    else Ok (map float_ofZ (zrange 0 (Z.to_nat n)));
  cNoise3 := fun _ _ shape _ =>
    let '(f, r, c) := shape in
    if ((f <? 0) || (r <? 0) || (c <? 0))%Z then Raise ValueError
    else Ok (map (fun i => const_grid (float_ofZ i) (Z.to_nat r) (Z.to_nat c))
                 (zrange 0 (Z.to_nat f)))
|}.





(** ** Vocabulary of the statements *)

(** A grid of [r] rows of [c] cells. *)
Definition has_shape {A : Type} (r c : nat) (g : grid A) : Prop :=
  length g = r /\ Forall (fun row => length row = c) g.

(** What a run assumes of its collaborators: [np.random.rand(n)] returns
    [n] samples; [cNoise] returns an array of the shape it is asked for; the
    transforms keep the shape of their argument. *)
Definition ext_contract {F : Type} (ext : Externals F) : Prop :=
  (forall k n, length (rand ext k n) = n)
  /\ (forall k beta f m std,
         (0 <= f)%Z -> (0 <= m)%Z ->
         exists noise,
           cNoise3 ext k beta (f, m, m) std = Ok noise
           /\ length noise = Z.to_nat f
           /\ Forall (has_shape (Z.to_nat m) (Z.to_nat m)) noise)
  /\ (forall r c X,
         has_shape r c X ->
         has_shape r c (fftn ext X) /\ has_shape r c (ifftn ext X)).

(** A buffer of [n] frames of side [m] in each view. *)
Definition good_buffers {F : Type} (m n : nat) (buf : Buffers F) : Prop :=
  length (nr1 buf) = n /\ length (nr2 buf) = n
  /\ Forall (has_shape m m) (nr1 buf) /\ Forall (has_shape m m) (nr2 buf).

(** The six increments of a pass have the shape of the grid. *)
Definition stages_shape {F : Type} (m : nat) (ks : Stages (F:=F)) : Prop :=
  has_shape m m (k1 ks) /\ has_shape m m (k2 ks) /\ has_shape m m (k3 ks)
  /\ has_shape m m (k4 ks) /\ has_shape m m (k5 ks) /\ has_shape m m (k6 ks).

(** Each entry of [ts] exceeds the previous one, starting from [t0], by a
    positive amount of at most [dt]. *)
Fixpoint advances (t0 dt : R) (ts : list R) : Prop :=
  match ts with
  | [] => True
  | t :: rest => (t0 < t <= t0 + dt)%R /\ advances t dt rest
  end.

(** The states of the steps [first, first + 1, ...] whose index is in
    [stepsave]. *)
Definition snapshots {A : Type} (stepsave : list Z) (first : nat)
    (ss : list A) : list A :=
  map snd (filter (fun p => saved stepsave (fst p))
                  (combine (seq first (length ss)) ss)).





(** ** Concrete inputs *)

(** The scenario of the specification: [c1 = c2 = h = 1], [msize = 8],
    [ic = 'r'], [sigma_r = 0], [noiseSpeed = 0.5], additive noise. *)
Definition scenario : NCGL R :=
  mkNCGL 1%R 1%R (1 / 100)%R 1%R "r" 8 2 0%R "additive" (1 / 2)%R [].

(** A grid of side two with spacing [h = 2], and on it the impulse
    [1 + 1j] at the origin. *)
Definition spacing_two : NCGL R :=
  mkNCGL 1%R 1%R (1 / 100)%R 2%R "r" 2 2 0%R "additive" 1%R [].

Definition impulse_state : grid (complex R) :=
  [[mkC 1%R 1%R; mkC 0%R 0%R]; [mkC 0%R 0%R; mkC 0%R 0%R]].

(** Fifty frames of side two, frame [f] filled with the value [f]. *)
Definition fifty_frames : list (grid float) :=
  map (fun f => const_grid (float_ofZ f) 2 2) (zrange 0 50).

(** Diffusive noise on a grid of one cell, with a buffer of two frames. *)
Definition diffusive_self : NCGL float :=
  {| c1 := 1%float; c2 := 1%float; a0 := ratio 1 100; h := 1%float;
     ic := "r"; msize := 1; dim := 2; sigma_r := 1%float;
     noiseType := "diffusive"; noiseSpeed := 1%float; noiseArgs := [] |}.

Definition two_frames : Buffers float :=
  {| nr1 := [[[0%float]]; [[0%float]]];
     nr2 := [[[1%float]]; [[2%float]]];
     maxTime := 1%float |}.

(** A grid of side two whose run of one step asks for a single noise
    frame. *)
Definition one_step_self : NCGL float :=
  {| c1 := 1%float; c2 := 1%float; a0 := ratio 1 100; h := 1%float;
     ic := "r"; msize := 2; dim := 2; sigma_r := 0%float;
     noiseType := "additive"; noiseSpeed := 1%float; noiseArgs := [] |}.


(** The amplitude a chain starts from: the argument when there is one,
    otherwise [self.a0] plus the perturbation drawn at the start. *)
Definition start_amplitude {F : Type} {NF : Num F} (ext : Externals F)
    (self : NCGL F) (a0_arg : option (complex F)) (log : list event)
  : complex F :=
  match a0_arg with
  | Some a => a
  | None =>
      RtoC (a0 self
            + ratio 1 (10 ^ 6)
              * (hd zero (rand ext (length log) 1) - ratio 1 2))%num
  end.

(** Both parts zero. *)
Definition is_zero (z : complex R) : Prop := re z = 0%R /\ im z = 0%R.

(** A second stand-in for the generator: noise that is zero everywhere. *)
Definition silent_noise3 (shape : Z * Z * Z) : Exc (list (grid R)) :=
  let '(f, r, c) := shape in
  if ((f <? 0) || (r <? 0) || (c <? 0))%Z then Raise ValueError
  else Ok (map (fun _ : Z => const_grid 0%R (Z.to_nat r) (Z.to_nat c))
               (zrange 0 (Z.to_nat f))).

Definition ext_R_silent : Externals R := {|
  fftn := fftn ext_R;
  ifftn := ifftn ext_R;
  rand := rand ext_R;
  cNoise1 := cNoise1 ext_R;
  cNoise3 := fun _ _ shape _ => silent_noise3 shape
|}.

(** * Properties *)

Unset Implicit Arguments.

(** ** Exact arithmetic: decisions and integer parts *)

Lemma R_ltb_true (x y : R) : (x < y)%R -> R_ltb x y = true.
Proof. intros Hlt; unfold R_ltb; destruct (Rlt_dec x y); [reflexivity | contradiction]. Qed.

Lemma R_ltb_false (x y : R) : (y <= x)%R -> R_ltb x y = false.
Proof. intros Hle; unfold R_ltb; destruct (Rlt_dec x y); [lra | reflexivity]. Qed.

Lemma R_ltb_spec (x y : R) : R_ltb x y = true <-> (x < y)%R.
Proof.
  unfold R_ltb; destruct (Rlt_dec x y); split; intros; try assumption;
    try reflexivity; try discriminate; contradiction.
Qed.

Lemma R_leb_true (x y : R) : (x <= y)%R -> R_leb x y = true.
Proof. intros Hle; unfold R_leb; destruct (Rle_dec x y); [reflexivity | contradiction]. Qed.

Lemma R_leb_false (x y : R) : (y < x)%R -> R_leb x y = false.
Proof. intros Hlt; unfold R_leb; destruct (Rle_dec x y); [lra | reflexivity]. Qed.

Lemma R_eqb_true (x : R) : R_eqb x x = true.
Proof. unfold R_eqb; destruct (Req_dec_T x x); [reflexivity | congruence]. Qed.

Lemma R_eqb_false (x y : R) : x <> y -> R_eqb x y = false.
Proof. intros Hne; unfold R_eqb; destruct (Req_dec_T x y); [contradiction | reflexivity]. Qed.

Lemma R_floor_bounds (x : R) : (IZR (R_floor x) <= x < IZR (R_floor x) + 1)%R.
Proof. unfold R_floor; destruct (base_Int_part x); lra. Qed.

Lemma R_ceil_bounds (x : R) : (IZR (R_ceil x) - 1 < x <= IZR (R_ceil x))%R.
Proof.
  unfold R_ceil; rewrite opp_IZR; destruct (base_Int_part (- x)); lra.
Qed.

Lemma R_floor_IZR (z : Z) : R_floor (IZR z) = z.
Proof. unfold R_floor; symmetry; apply Int_part_spec; lra. Qed.

Lemma R_ceil_IZR (z : Z) : R_ceil (IZR z) = z.
Proof.
  unfold R_ceil; rewrite <- opp_IZR.
  change (Int_part (IZR (- z))) with (R_floor (IZR (- z))).
  rewrite R_floor_IZR; lia.
Qed.

Lemma R_trunc_IZR (z : Z) : R_trunc (IZR z) = z.
Proof.
  unfold R_trunc; destruct (Rle_dec 0 (IZR z));
    [apply R_floor_IZR | apply R_ceil_IZR].
Qed.

Lemma R_floor_unique (x : R) (z : Z) :
  (IZR z <= x < IZR z + 1)%R -> R_floor x = z.
Proof. intros Hx; unfold R_floor; symmetry; apply Int_part_spec; lra. Qed.

Lemma R_ceil_unique (x : R) (z : Z) :
  (IZR z - 1 < x <= IZR z)%R -> R_ceil x = z.
Proof.
  intros Hx; unfold R_ceil.
  change (Int_part (- x)%R) with (R_floor (- x)%R).
  rewrite (R_floor_unique (- x)%R (- z)%Z); [lia | rewrite opp_IZR; lra].
Qed.

(** ** Exact arithmetic: complex numbers *)

Lemma complex_eq {F : Type} (a b : complex F) :
  re a = re b -> im a = im b -> a = b.
Proof. destruct a, b; simpl; intros -> ->; reflexivity. Qed.

(** Dividing by a promoted real divides both parts by it. *)
Lemma Cdiv_real (a : complex R) (x : R) :
  Cdiv a (RtoC x) = mkC (re a / x)%R (im a / x)%R.
Proof.
  unfold Cdiv, RtoC, zero, one; cbn.
  rewrite Rabs_R0.
  rewrite (R_leb_true 0 (Rabs x) (Rabs_pos x)).
  rewrite R_eqb_true, andb_true_r.
  destruct (Req_dec_T x 0) as [Hx | Hx].
  - subst x; rewrite Rabs_R0, R_eqb_true; reflexivity.
  - rewrite R_eqb_false by (apply Rabs_no_R0; exact Hx).
    apply complex_eq; cbn; field; lra.
Qed.

Lemma Cmul_real_l (x : R) (a : complex R) :
  Cmul (RtoC x) a = mkC (x * re a)%R (x * im a)%R.
Proof. unfold Cmul, RtoC, zero; cbn; apply complex_eq; cbn; ring. Qed.

Lemma Cmul_real_r (a : complex R) (x : R) :
  Cmul a (RtoC x) = mkC (re a * x)%R (im a * x)%R.
Proof. unfold Cmul, RtoC, zero; cbn; apply complex_eq; cbn; ring. Qed.

Lemma Cabs_sq (a : complex R) :
  sq (Cabs a) = (re a * re a + im a * im a)%R.
Proof.
  unfold sq, Cabs; cbn; apply sqrt_sqrt; nra.
Qed.

Lemma Cabs_nonneg (a : complex R) : (0 <= Cabs a)%R.
Proof. unfold Cabs; cbn; apply sqrt_pos. Qed.

Lemma Cabs_zero_iff (a : complex R) : Cabs a = 0%R <-> a = Czero.
Proof.
  split.
  - intros Ha. pose proof (Cabs_sq a) as Hsq.
    rewrite Ha in Hsq; unfold sq in Hsq; cbn in Hsq.
    apply complex_eq; unfold Czero, zero; cbn; nra.
  - intros ->; unfold Cabs, Czero, sq, zero; cbn.
    replace (0 * 0 + 0 * 0)%R with 0%R by ring; apply sqrt_0.
Qed.

(** ** The reaction term *)

(** C5: the reaction term is a function of the amplitude and of [c2] alone.
    On every amplitude [a] and at every time it returns
    [a - (1 + i c2) |a|^2 a], whose real part is
    [re a - |a|^2 (re a - c2 im a)] and whose imaginary part is
    [im a - |a|^2 (im a + c2 re a)]; two calls that agree on [c2] agree
    whatever the time and the other fields of the object; the zero amplitude
    is mapped to zero; on a grid the same function is applied cell by cell,
    and it is total (its result is a value, not an exception). *)
Theorem C5_reaction_pure :
  forall (self : NCGL R) (a : complex R) (t : R),
    let m := (re a * re a + im a * im a)%R in
    reaction_scalar self a t
      = mkC (re a - m * (re a - c2 self * im a))%R
            (im a - m * (im a + c2 self * re a))%R
    /\ (forall (self' : NCGL R) (t' : R),
           c2 self' = c2 self ->
           reaction_scalar self' a t' = reaction_scalar self a t)
    /\ reaction_scalar self Czero t = Czero
    /\ (forall g : grid (complex R),
           reaction self g t = gmap (fun z => reaction_scalar self z t) g
           /\ length (reaction self g t) = length g).
Proof.
  intros self a t m.
  assert (Hform : forall (s : NCGL R) (z : complex R) (u : R),
             reaction_scalar s z u
             = mkC (re z - (re z * re z + im z * im z)
                           * (re z - c2 s * im z))%R
                   (im z - (re z * re z + im z * im z)
                           * (im z + c2 s * re z))%R).
  { intros s z u; unfold reaction_scalar.
    rewrite Cmul_real_r, Cabs_sq.
    unfold Csub, Cmul, Cadd, RtoC, Ci, zero, one; cbn.
    apply complex_eq; cbn; ring. }
  repeat split.
  - apply Hform.
  - intros self' t' Hc; rewrite !Hform, Hc; reflexivity.
  - rewrite Hform; unfold Czero, zero; cbn; apply complex_eq; cbn; ring.
  - unfold reaction, gmap; apply length_map.
Qed.

(** ** The Fehlberg coefficients *)

(** C9: the fourth-order estimate the code forms is
    [state + (25/216) k1 + (1408/2565) k3 + (2197/4101) k4 - k5/5]: the
    weight of [k4] is [2197/4101], which differs from the Fehlberg weight
    [2197/4104] the specification names.  The fifth-order estimate and the
    table of stage weights carry the coefficients of the Fehlberg tableau. *)
Theorem C9_approach4_weight_of_k4 :
  forall s a b c d e f : complex R,
    approach4 [[s]] (mkStages [[a]] [[b]] [[c]] [[d]] [[e]] [[f]])
      = [[mkC (re s + 25 / 216 * re a + 1408 / 2565 * re c
               + 2197 / 4101 * re d - re e / 5)%R
              (im s + 25 / 216 * im a + 1408 / 2565 * im c
               + 2197 / 4101 * im d - im e / 5)%R]]
    /\ (2197 / 4101 <> 2197 / 4104)%R
    /\ approach5 [[s]] (mkStages [[a]] [[b]] [[c]] [[d]] [[e]] [[f]])
       = [[mkC (re s + 16 / 135 * re a + 6656 / 12825 * re c
                + 28561 / 56430 * re d - 9 / 50 * re e + 2 / 55 * re f)%R
               (im s + 16 / 135 * im a + 6656 / 12825 * im c
                + 28561 / 56430 * im d - 9 / 50 * im e + 2 / 55 * im f)%R]]
    /\ w (F:=R)
       = [ [0; 0; 0; 0; 0; 0];
           [1 / 4; 0; 0; 0; 0; 0];
           [3 / 32; 9 / 32; 0; 0; 0; 0];
           [1932 / 2197; -7200 / 2197; 7296 / 2197; 0; 0; 0];
           [439 / 216; -8; 3680 / 513; -845 / 4104; 0; 0];
           [-8 / 27; 2; -3544 / 2565; 1859 / 4104; -11 / 40; 0] ]%R.
Proof.
  intros; split; [| split; [lra | split]].
  - unfold approach4;
      cbn [k1 k3 k4 k5 e_add e_sub e_scale e_rdiv Elem_list Elem_complex
             zipWith map].
    rewrite !Cmul_real_l, Cdiv_real.
    unfold ratio, Cadd, Csub; cbn.
    reflexivity.
  - unfold approach5;
      cbn [k1 k3 k4 k5 k6 e_add e_sub e_scale e_rdiv Elem_list Elem_complex
             zipWith map].
    rewrite !Cmul_real_l.
    unfold ratio, Cadd, Csub; cbn.
    reflexivity.
  - reflexivity.
Qed.

(** ** Lists and indexing *)

Lemma py_index_ok {A : Type} (l : list A) (i : Z) :
  (0 <= i < Z.of_nat (length l))%Z ->
  exists a, py_index l i = Ok a /\ nth_error l (Z.to_nat i) = Some a.
Proof.
  intros Hi; unfold py_index.
  destruct (Z.ltb_spec i 0) as [Hneg | _]; [lia |].
  destruct (Z.leb_spec 0 i) as [_ | Hneg]; [| lia].
  destruct (Z.ltb_spec i (Z.of_nat (length l))) as [_ | Hbig]; [| lia].
  cbn [andb].
  destruct (nth_error l (Z.to_nat i)) as [a |] eqn:Hnth.
  - exists a; split; reflexivity.
  - apply nth_error_None in Hnth; lia.
Qed.

Lemma zipWith_length {A B C : Type} (f : A -> B -> C) (l : list A) (m : list B) :
  length (zipWith f l m) = Nat.min (length l) (length m).
Proof.
  revert m; induction l as [| a l IH]; intros [| b m]; cbn; try reflexivity.
  rewrite IH; reflexivity.
Qed.

Lemma zrange_length (a : Z) (n : nat) : length (zrange a n) = n.
Proof. revert a; induction n as [| n IH]; intros a; cbn; [| rewrite IH]; reflexivity. Qed.

Lemma gradient_interior_length {F S : Type} {NF : Num F} {ES : Elem F S}
    (f : list S) :
  length (gradient_interior f) = (length f - 2)%nat.
Proof.
  induction f as [| a tl IH]; [reflexivity |].
  destruct tl as [| b [| c tl']]; try reflexivity.
  change (gradient_interior (a :: b :: c :: tl'))
    with (e_rdiv (e_sub c a) (ofZ 2) :: gradient_interior (b :: c :: tl')).
  cbn [length] in *; rewrite IH; lia.
Qed.

Lemma np_gradient_ok {F S : Type} {NF : Num F} {ES : Elem F S} (f : list S) :
  (2 <= length f)%nat ->
  exists g, np_gradient f = Ok g /\ length g = length f.
Proof.
  intros Hlen; unfold np_gradient.
  destruct f as [| a [| b tl]]; cbn [length] in Hlen; try lia.
  destruct (rev (a :: b :: tl)) as [| z [| y tl']] eqn:Hrev.
  - apply (f_equal (@length S)) in Hrev; rewrite length_rev in Hrev; discriminate.
  - apply (f_equal (@length S)) in Hrev; rewrite length_rev in Hrev; discriminate.
  - eexists; split; [reflexivity |].
    cbn [length]; rewrite length_app, gradient_interior_length; cbn [length]; lia.
Qed.

Lemma np_gradient_short {F S : Type} {NF : Num F} {ES : Elem F S} (f : list S) :
  (length f < 2)%nat -> np_gradient f = Raise ValueError.
Proof.
  intros Hlen; destruct f as [| a [| b tl]]; cbn [length] in Hlen; try lia;
    reflexivity.
Qed.

(** ** The single-amplitude noise lookups *)

Lemma stage_offsets_R (i : Z) :
  stage_offsets (F:=R) i = (IZR i, (IZR i + 1 / 2)%R, IZR (i + 1)).
Proof. reflexivity. Qed.

Lemma floor_half (i : Z) : R_floor (IZR i + 1 / 2) = i.
Proof. apply R_floor_unique; lra. Qed.

Lemma ceil_half (i : Z) : R_ceil (IZR i + 1 / 2) = (i + 1)%Z.
Proof. apply R_ceil_unique; rewrite plus_IZR; lra. Qed.

(** The indices a lookup at one of the three offsets of step [i] uses. *)
Lemma offset_indices (i : Z) (o : R) :
  In o [IZR i; (IZR i + 1 / 2)%R; IZR (i + 1)] ->
  (i <= R_floor o <= i + 1)%Z /\ (i <= R_ceil o <= i + 1)%Z.
Proof.
  intros [<- | [<- | [<- | []]]].
  - rewrite R_floor_IZR, R_ceil_IZR; lia.
  - rewrite floor_half, ceil_half; lia.
  - rewrite R_floor_IZR, R_ceil_IZR; lia.
Qed.

Lemma interpolate1D_ok (eta : list (complex R)) (o : R) :
  (0 <= R_floor o < Z.of_nat (length eta))%Z ->
  (0 <= R_ceil o < Z.of_nat (length eta))%Z ->
  exists z, interpolate1D eta o = Ok z.
Proof.
  intros Hf Hc; unfold interpolate1D; cbn [floorZ ceilZ Num_R bindE].
  destruct (py_index_ok eta _ Hf) as (n1 & Hn1 & _).
  destruct (py_index_ok eta _ Hc) as (n2 & Hn2 & _).
  destruct (R_floor o =? R_ceil o)%Z.
  - exists n1; exact Hn1.
  - rewrite Hn1, Hn2; cbn [bindE]; eexists; reflexivity.
Qed.

Lemma noisy_step_ok (self : NCGL R) (eta : list (complex R)) (dt : R)
    (i : Z) (a : complex R) :
  (0 <= i)%Z -> (i + 1 < Z.of_nat (length eta))%Z ->
  exists a', noisy_step self eta dt i a = Ok a'.
Proof.
  intros Hlo Hhi.
  assert (Hlook : forall o, In o [IZR i; (IZR i + 1 / 2)%R; IZR (i + 1)] ->
                   exists z, interpolate1D eta o = Ok z).
  { intros o Ho; destruct (offset_indices i o Ho) as [Hf Hc].
    apply interpolate1D_ok; lia. }
  destruct (Hlook (IZR i)) as [n1 Hn1]; [cbn; auto |].
  destruct (Hlook (IZR i + 1 / 2)%R) as [n2 Hn2]; [cbn; auto |].
  destruct (Hlook (IZR (i + 1))) as [n4 Hn4]; [cbn; auto |].
  unfold noisy_step; rewrite stage_offsets_R.
  destruct (String.eqb (noiseType self) "multiplicative");
    rewrite Hn1; cbn [bindE]; rewrite Hn2; cbn [bindE]; rewrite Hn4;
    cbn [bindE]; eexists; reflexivity.
Qed.

Lemma noisy_loop_ok (self : NCGL R) (eta : list (complex R)) (dt : R)
    (n : nat) :
  forall (i : Z) (a : complex R) (states : list (complex R)),
    (0 <= i)%Z -> (i + Z.of_nat n + 1 <= Z.of_nat (length eta))%Z ->
    exists out, noisy_loop self eta dt (zrange i n) a states = Ok out
                /\ length out = (length states + n)%nat.
Proof.
  induction n as [| n IH]; intros i a states Hlo Hhi.
  - exists states; split; [reflexivity | cbn; lia].
  - cbn [zrange noisy_loop].
    destruct (noisy_step_ok self eta dt i a Hlo) as [a' Ha']; [lia |].
    rewrite Ha'; cbn [bindE].
    destruct (IH (i + 1)%Z a' (states ++ [a])) as (out & Hout & Hlen); try lia.
    exists out; split; [exact Hout |].
    rewrite Hlen, length_app; cbn; lia.
Qed.

(** C10: with a noise trajectory of [nit + 2] samples, every lookup of
    [getNoisyChainedSingleReaction] stays inside it.  At each step
    [i] of [0 .. nit - 1] the three offsets [i], [i + 0.5] and [i + 1] have
    their floor and their ceiling between [0] and [nit + 1], so
    [__interpolate1D] returns a sample and raises no [IndexError]; and when
    the generator delivers its two sequences of [nit + 2] samples the whole
    call returns the [nit] visited amplitudes. *)
Theorem C10_noise_lookups_in_bounds :
  forall (nit : nat) (eta : list (complex R)),
    length eta = (nit + 2)%nat ->
    (forall (i : Z) (o : R),
        (0 <= i < Z.of_nat nit)%Z ->
        In o (let '(o1, o2, o3) := stage_offsets i in [o1; o2; o3]) ->
        exists p1 p2 z,
          floorZ o = Ok p1 /\ ceilZ o = Ok p2
          /\ (0 <= p1 <= Z.of_nat nit + 1)%Z
          /\ (0 <= p2 <= Z.of_nat nit + 1)%Z
          /\ interpolate1D eta o = Ok z)
    /\ (forall (ext : Externals R) (self : NCGL R)
               (a0_arg : option (complex R)) (beta dt : R) (log : list event),
           (forall k, exists l,
                 cNoise1 ext k beta (Z.of_nat nit + 2) 1%R = Ok l
                 /\ length l = (nit + 2)%nat) ->
           exists states log',
             getNoisyChainedSingleReaction ext self a0_arg beta dt nit log
             = (Ok states, log')
             /\ length states = nit).
Proof.
  intros nit eta Hlen; split.
  - intros i o Hi Ho; rewrite stage_offsets_R in Ho.
    destruct (offset_indices i o Ho) as [Hf Hc].
    destruct (interpolate1D_ok eta o) as [z Hz]; [rewrite Hlen; lia .. |].
    exists (R_floor o), (R_ceil o), z.
    repeat split; try reflexivity; try lia; exact Hz.
  - intros ext self a0_arg beta dt log Hgen.
    unfold getNoisyChainedSingleReaction, bindM, rand_scalar, request_noise1,
      liftM, retM.
    destruct (Hgen (length (log ++ [EvRand 1]))) as (er & Her & Hler).
    cbn [ofZ Num_R]; rewrite Her.
    destruct (Hgen (length ((log ++ [EvRand 1])
                              ++ [EvNoise [(Z.of_nat nit + 2)%Z]])))
      as (ei & Hei & Hlei).
    rewrite Hei.
    set (eta0 := zipWith _ er ei).
    assert (Hl0 : length eta0 = (nit + 2)%nat).
    { unfold eta0; rewrite zipWith_length, Hler, Hlei; lia. }
    destruct (np_gradient_ok (F:=R) eta0) as (g & Hg & Hlg); [lia |].
    rewrite Hg.
    match goal with
    | |- context [noisy_loop self g dt (zrange 0 nit) ?a []] =>
        destruct (noisy_loop_ok self g dt nit 0%Z a []) as (out & Hout & Hlo);
          [lia | rewrite Hlg, Hl0; lia |]
    end.
    rewrite Hout; exists out; eexists; split; [reflexivity | exact Hlo].
Qed.

(** Two steps on a trajectory of four samples. *)
Lemma C10_noise_lookups_in_bounds_witness :
  (exists p1 p2 z,
      floorZ (IZR 1 + 1 / 2)%R = Ok p1 /\ ceilZ (IZR 1 + 1 / 2)%R = Ok p2
      /\ (0 <= p1 <= Z.of_nat 2 + 1)%Z /\ (0 <= p2 <= Z.of_nat 2 + 1)%Z
      /\ interpolate1D (repeat (mkC 1%R 0%R) 4) (IZR 1 + 1 / 2)%R = Ok z)
  /\ (exists states log',
         getNoisyChainedSingleReaction ext_R
           (mkNCGL 1%R 1%R (1 / 100)%R 1%R "r" 8 2 1%R "additive" 1%R [])
           None 0%R (1 / 10)%R 2 []
         = (Ok states, log')
         /\ length states = 2%nat).
Proof.
  destruct (C10_noise_lookups_in_bounds 2 (repeat (mkC 1%R 0%R) 4) eq_refl)
    as [Hlook Hrun].
  split.
  - apply (Hlook 1%Z); [lia | cbn; auto].
  - apply Hrun; intros k; eexists; split; reflexivity.
Defined.

(** ** The frame times of [interpolateNoise] *)

Lemma zrange_nth (n : nat) :
  forall (a : Z) (k : nat),
    (k < n)%nat -> nth_error (zrange a n) k = Some (a + Z.of_nat k)%Z.
Proof.
  induction n as [| n IH]; intros a k Hk; [lia |].
  destruct k as [| k]; cbn [zrange nth_error].
  - f_equal; lia.
  - rewrite IH by lia; f_equal; lia.
Qed.

Lemma np_linspace01_length {F : Type} {NF : Num F} (n : nat) :
  length (np_linspace01 (F:=F) n) = n.
Proof.
  destruct n as [| [| k]]; try reflexivity.
  unfold np_linspace01.
  rewrite length_app, length_map, zrange_length; cbn; lia.
Qed.

(** In exact arithmetic the [k]-th of [n >= 2] frame times is [k/(n-1)]. *)
Lemma np_linspace01_nth (n k : nat) :
  (2 <= n)%nat -> (k < n)%nat ->
  nth_error (np_linspace01 (F:=R) n) k = Some (INR k / INR (n - 1))%R.
Proof.
  intros Hn Hk.
  destruct n as [| [| m]]; try lia.
  unfold np_linspace01.
  replace (S (S m) - 1)%nat with (S m) by lia.
  assert (Hpos : (0 < INR (S m))%R) by (apply lt_0_INR; lia).
  destruct (Nat.eq_dec k (S m)) as [-> | Hne].
  - rewrite nth_error_app2 by (rewrite length_map, zrange_length; lia).
    rewrite length_map, zrange_length, Nat.sub_diag; cbn [nth_error].
    unfold one; cbn [ofZ Num_R]; f_equal; field; lra.
  - rewrite nth_error_app1 by (rewrite length_map, zrange_length; lia).
    rewrite nth_error_map, zrange_nth by lia; cbn [option_map].
    unfold zero, one; cbn [ofZ add sub mul div Num_R].
    rewrite Z.add_0_l, <- !INR_IZR_INZ; f_equal; field; lra.
Qed.

Lemma py_index_nat {A : Type} (l : list A) (k : nat) (a : A) :
  nth_error l k = Some a -> py_index l (Z.of_nat k) = Ok a.
Proof.
  intros Hnth.
  assert (Hk : (k < length l)%nat) by (apply nth_error_Some; congruence).
  destruct (py_index_ok l (Z.of_nat k)) as (b & Hb & Hnb); [lia |].
  rewrite Nat2Z.id in Hnb; congruence.
Qed.

Lemma eps_value : ratio (F:=R) 1 (10 ^ 15) = (1 / 1000000000000000)%R.
Proof. reflexivity. Qed.

(** ** Elementwise arithmetic on real frames *)

Lemma zipWith_map {A A' B B' C : Type} (f : A' -> B' -> C) (g : A -> A')
    (h : B -> B') (l : list A) (m : list B) :
  zipWith f (map g l) (map h m) = zipWith (fun a b => f (g a) (h b)) l m.
Proof.
  revert m; induction l as [| a l IH]; intros [| b m]; cbn; try reflexivity.
  rewrite IH; reflexivity.
Qed.

Lemma zipWith_ext {A B C : Type} (f g : A -> B -> C) (l : list A) (m : list B) :
  (forall a b, f a b = g a b) -> zipWith f l m = zipWith g l m.
Proof.
  intros Hfg; revert m; induction l as [| a l IH]; intros [| b m]; cbn;
    try reflexivity.
  rewrite Hfg, IH; reflexivity.
Qed.

Lemma blend_frames (w1 w2 d : R) (f1 f2 : grid R) :
  d <> 0%R ->
  e_add (e_rdiv (e_scale w1 f1) d) (e_rdiv (e_scale w2 f2) d)
  = blend (w1 / d) (w2 / d) f1 f2.
Proof.
  intros Hd; unfold blend, gzip.
  cbn [e_add e_rdiv e_scale Elem_list Elem_real].
  rewrite !map_map, zipWith_map.
  apply zipWith_ext; intros r1 r2.
  rewrite !map_map, zipWith_map.
  apply zipWith_ext; intros a b; cbn [mul div add Num_R]; field; exact Hd.
Qed.

(** The index arithmetic of [interpolateNoise] strictly inside the bracket
    of frames [k] and [k + 1]. *)
Lemma bracket_indices (n k : nat) (tau : R) :
  (k + 1 < n)%nat ->
  (INR k / INR (n - 1) < tau < INR (k + 1) / INR (n - 1))%R ->
  let x := (IZR (Z.of_nat n - 1) * tau)%R in
  R_floor x = Z.of_nat k /\ R_ceil x = Z.of_nat (k + 1).
Proof.
  intros Hk [Hlo Hhi] x.
  assert (Hpos : (0 < INR (n - 1))%R) by (apply lt_0_INR; lia).
  assert (Hx : x = (INR (n - 1) * tau)%R).
  { unfold x; rewrite INR_IZR_INZ; do 2 f_equal; lia. }
  assert (Hxlo : (INR k < x)%R).
  { rewrite Hx. apply (Rmult_lt_compat_l (INR (n - 1))) in Hlo; [| exact Hpos].
    replace (INR (n - 1) * (INR k / INR (n - 1)))%R with (INR k) in Hlo
      by (field; lra).
    exact Hlo. }
  assert (Hxhi : (x < INR (k + 1))%R).
  { rewrite Hx. apply (Rmult_lt_compat_l (INR (n - 1))) in Hhi; [| exact Hpos].
    replace (INR (n - 1) * (INR (k + 1) / INR (n - 1)))%R with (INR (k + 1))
      in Hhi by (field; lra).
    exact Hhi. }
  rewrite plus_INR in Hxhi; cbn [INR] in Hxhi.
  split.
  - apply R_floor_unique; rewrite <- INR_IZR_INZ; lra.
  - apply R_ceil_unique; rewrite <- INR_IZR_INZ, plus_INR; cbn [INR]; lra.
Qed.

(** Strictly inside a bracket the code takes the blending branch, whatever
    the rank of a frame. *)
Lemma interpolateNoise_between {S : Type} {ES : Elem R S}
    (nr1 nr2 : list S) (k : nat) (tau : R) (r1 r2 d1 d2 : S) :
  let n := length nr1 in
  let t1 := (INR k / INR (n - 1))%R in
  let t2 := (INR (k + 1) / INR (n - 1))%R in
  let w1 := Rabs (t1 - tau) in
  let w2 := Rabs (t2 - tau) in
  let d := Rabs (t2 - t1) in
  (Z.of_nat n - 1 <= 10 ^ 15)%Z ->
  (t1 < tau < t2)%R ->
  nth_error nr1 k = Some r1 -> nth_error nr1 (k + 1) = Some r2 ->
  nth_error nr2 k = Some d1 -> nth_error nr2 (k + 1) = Some d2 ->
  d <> 0%R
  /\ interpolateNoise nr1 nr2 tau
     = Ok (e_add (e_rdiv (e_scale w1 r1) d) (e_rdiv (e_scale w2 r2) d),
           e_add (e_rdiv (e_scale w1 d1) d) (e_rdiv (e_scale w2 d2) d)).
Proof.
  intros n t1 t2 w1 w2 d Hcap Htau Hr1 Hr2 Hd1 Hd2.
  assert (Hk : (k + 1 < n)%nat) by (apply nth_error_Some; congruence).
  assert (Hpos : (0 < INR (n - 1))%R) by (apply lt_0_INR; lia).
  assert (Ht : (t2 - t1 = 1 / INR (n - 1))%R).
  { unfold t1, t2; rewrite plus_INR; cbn [INR]; field; lra. }
  assert (Hgap : (1 / 1000000000000000 <= Rabs (t1 - t2))%R).
  { rewrite Rabs_minus_sym, Ht, Rabs_pos_eq
      by (apply Rlt_le, Rdiv_lt_0_compat; lra).
    assert (Hle : (INR (n - 1) <= 1000000000000000)%R).
    { apply IZR_le in Hcap.
      change (10 ^ 15)%Z with 1000000000000000%Z in Hcap.
      rewrite minus_IZR, <- INR_IZR_INZ in Hcap.
      rewrite minus_INR by lia; cbn [INR]; lra. }
    apply Rmult_le_reg_r with (r := INR (n - 1)); [exact Hpos |].
    replace (1 / INR (n - 1) * INR (n - 1))%R with 1%R by (field; lra).
    lra. }
  split.
  - unfold d; rewrite Rabs_minus_sym; lra.
  - destruct (bracket_indices n k tau Hk Htau) as [Hfl Hce].
    unfold interpolateNoise; fold n.
    cbn [ofZ mul floorZ ceilZ Num_R bindE]; rewrite Hfl, Hce.
    rewrite (py_index_nat _ k t1) by (apply np_linspace01_nth; lia).
    rewrite (py_index_nat _ (k + 1) t2) by (apply np_linspace01_nth; lia).
    rewrite (py_index_nat _ _ _ Hr1), (py_index_nat _ _ _ Hr2).
    rewrite (py_index_nat _ _ _ Hd1), (py_index_nat _ _ _ Hd2).
    cbn [bindE]; rewrite eps_value.
    cbn [fabs sub ltb Num_R]; rewrite (R_ltb_false _ _ Hgap).
    reflexivity.
Qed.

(** C6: strictly between two neighbouring frame times [t1 = k/(n-1)] and
    [t2 = (k+1)/(n-1)] of a buffer of [n] frames, [interpolateNoise] returns,
    for the rate view and for the raw view alike, the sum of frame [k]
    weighted by [|t1 - tau| / |t2 - t1|] and of frame [k+1] weighted by
    [|t2 - tau| / |t2 - t1|] (each weight is the distance of [tau] from the
    frame's own time).  The buffer is one the code can hold, of at most
    [10^15 + 1] frames, so that the two times differ by at least the [1e-15]
    the code tests.  In particular two frames of values 0.0 and 2.0 give 1.0
    at the halfway time, in exact arithmetic and in binary64. *)
Theorem C6_interpolateNoise_weights :
  forall (nr1 nr2 : list (grid R)) (k : nat) (tau : R)
         (r1 r2 d1 d2 : grid R),
    let n := length nr1 in
    let t1 := (INR k / INR (n - 1))%R in
    let t2 := (INR (k + 1) / INR (n - 1))%R in
    let w1 := (Rabs (t1 - tau) / Rabs (t2 - t1))%R in
    let w2 := (Rabs (t2 - tau) / Rabs (t2 - t1))%R in
    (Z.of_nat n - 1 <= 10 ^ 15)%Z ->
    (t1 < tau < t2)%R ->
    nth_error nr1 k = Some r1 -> nth_error nr1 (k + 1) = Some r2 ->
    nth_error nr2 k = Some d1 -> nth_error nr2 (k + 1) = Some d2 ->
    interpolateNoise nr1 nr2 tau = Ok (blend w1 w2 r1 r2, blend w1 w2 d1 d2)
    /\ interpolateNoise (F:=R) [0%R; 2%R] [0%R; 2%R] (1 / 2)%R
       = Ok (1%R, 1%R)
    /\ interpolateNoise (F:=float) [0%float; 2%float] [0%float; 2%float]
         0.5%float
       = Ok (1%float, 1%float).
Proof.
  intros nr1 nr2 k tau r1 r2 d1 d2 n t1 t2 w1 w2 Hcap Htau
         Hr1 Hr2 Hd1 Hd2.
  split; [| split].
  - destruct (interpolateNoise_between nr1 nr2 k tau r1 r2 d1 d2
                Hcap Htau Hr1 Hr2 Hd1 Hd2) as [Hd ->].
    rewrite !(blend_frames _ _ _ _ _ Hd); reflexivity.
  - destruct (interpolateNoise_between (S:=R) [0%R; 2%R] [0%R; 2%R] 0
                (1 / 2)%R 0%R 2%R 0%R 2%R) as [_ ->];
      try reflexivity.
    + cbn [length]; lia.
    + cbn; lra.
    + cbn [length Nat.sub Nat.add INR e_add e_rdiv e_scale Elem_real
             add mul div Num_R].
      replace (0 / 1 - 1 / 2)%R with (- (1 / 2))%R by lra.
      replace (1 / 1 - 1 / 2)%R with (1 / 2)%R by lra.
      replace (1 / 1 - 0 / 1)%R with 1%R by lra.
      rewrite Rabs_Ropp, (Rabs_pos_eq (1 / 2)), Rabs_R1 by lra.
      do 2 f_equal; lra.
  - vm_compute; reflexivity.
Qed.

(** Two frames of one cell, a quarter of the way: the code weighs frame 0
    by 1/4 and frame 1 by 3/4. *)
Lemma C6_interpolateNoise_weights_witness :
  interpolateNoise (F:=R) [[[0%R]]; [[2%R]]] [[[4%R]]; [[8%R]]] (1 / 4)%R
  = Ok (blend (Rabs (INR 0 / INR 1 - 1 / 4) / Rabs (INR 1 / INR 1 - INR 0 / INR 1))
              (Rabs (INR 1 / INR 1 - 1 / 4) / Rabs (INR 1 / INR 1 - INR 0 / INR 1))
              [[0%R]] [[2%R]],
        blend (Rabs (INR 0 / INR 1 - 1 / 4) / Rabs (INR 1 / INR 1 - INR 0 / INR 1))
              (Rabs (INR 1 / INR 1 - 1 / 4) / Rabs (INR 1 / INR 1 - INR 0 / INR 1))
              [[4%R]] [[8%R]]).
Proof.
  apply (C6_interpolateNoise_weights
           [[[0%R]]; [[2%R]]] [[[4%R]]; [[8%R]]] 0 (1 / 4)%R
           [[0%R]] [[2%R]] [[4%R]] [[8%R]]).
  - cbn [length]; lia.
  - cbn; lra.
  - reflexivity.
  - reflexivity.
  - reflexivity.
  - reflexivity.
Defined.

(** ** Interpolation at a frame time *)

(** In exact arithmetic the index [(n-1) * (k/(n-1))] is the integer [k],
    floor and ceiling agree, and frame [k] of either view is returned. *)
Lemma interpolateNoise_at_frame_time {S : Type} {ES : Elem R S}
    (nr1 nr2 : list S) (k : nat) (r d : S) :
  (2 <= length nr1)%nat ->
  nth_error nr1 k = Some r -> nth_error nr2 k = Some d ->
  interpolateNoise nr1 nr2 (INR k / INR (length nr1 - 1))%R = Ok (r, d).
Proof.
  intros Hn Hr Hd.
  assert (Hk : (k < length nr1)%nat) by (apply nth_error_Some; congruence).
  assert (Hpos : (0 < INR (length nr1 - 1))%R) by (apply lt_0_INR; lia).
  unfold interpolateNoise.
  cbn [ofZ mul floorZ ceilZ Num_R bindE].
  replace (IZR (Z.of_nat (length nr1) - 1) * (INR k / INR (length nr1 - 1)))%R
    with (IZR (Z.of_nat k)).
  2:{ rewrite <- INR_IZR_INZ.
      replace (IZR (Z.of_nat (length nr1) - 1)) with (INR (length nr1 - 1)).
      - field; lra.
      - rewrite INR_IZR_INZ; f_equal; lia. }
  rewrite R_floor_IZR, R_ceil_IZR.
  rewrite (py_index_nat _ k _ (np_linspace01_nth _ k Hn Hk)).
  rewrite (py_index_nat _ _ _ Hr), (py_index_nat _ _ _ Hd).
  cbn [bindE]; rewrite eps_value; cbn [fabs sub ltb Num_R].
  rewrite R_ltb_true; [reflexivity |].
  replace (INR k / INR (length nr1 - 1) - INR k / INR (length nr1 - 1))%R
    with 0%R by lra.
  rewrite Rabs_R0; lra.
Qed.

(** C7: in binary64 the time of frame 1 of a fifty-frame buffer,
    [tau = 1/49], gives the index product [49 * tau < 1]; floor and ceiling
    then differ, the blend puts the weight [|t1 - tau| / |t2 - t1| = 1] on
    frame 0, and [interpolateNoise] returns frame 0 of both views, every
    cell 0.0, where frame 1 holds 1.0. *)
Theorem C7_frame_time_returns_previous_frame :
  let tau : float := ratio 1 49 in
  PrimFloat.ltb (mul (ofZ 49) tau) 1%float = true
  /\ py_index fifty_frames 1 = Ok (const_grid 1%float 2 2)
  /\ interpolateNoise fifty_frames fifty_frames tau
     = Ok (const_grid 0%float 2 2, const_grid 0%float 2 2).
Proof.
  intros tau; split; [| split].
  - (* 49 * (1/49) rounds to the float just below 1 *)
    vm_compute; reflexivity.
  - vm_compute; reflexivity.
  - (* floor 0, ceil 1: the blend with weight 1 on frame 0 *)
    vm_compute; reflexivity.
Qed.

(** ** The diffusive noise term *)

(** On a constant state the Laplacian is zero and the binary64 division
    [0/0] of the diffusive term gives NaN in both parts of the returned
    right-hand side; no exception is raised. *)
Lemma C4_diffusive_zero_laplacian_gives_nan :
  exists z : complex float,
    timeDerivatives ext_float diffusive_self two_frames
      [[mkC 0.25%float 0.5%float]] 0%float = Ok [[z]]
    /\ PrimFloat.is_nan (re z) = true /\ PrimFloat.is_nan (im z) = true.
Proof. eexists; vm_compute; repeat split; reflexivity. Qed.

Lemma spectral_laplacian_ok_any_self {F : Type} {NF : Num F}
    (ext : Externals F) (self self' : NCGL F) (state : grid (complex F)) :
  is_ok (spectral_laplacian ext self state)
  = is_ok (spectral_laplacian ext self' state).
Proof.
  unfold spectral_laplacian.
  destruct (np_fftfreq (length state)); [| reflexivity].
  destruct (np_fftfreq (length (hd [] state))); reflexivity.
Qed.

(** Whether [timeDerivatives] raises does not depend on the configuration,
    hence not on the noise type: only the frequency axes and the noise
    lookup can raise. *)
Lemma timeDerivatives_ok_any_self {F : Type} {NF : Num F}
    (ext : Externals F) (self self' : NCGL F) (buf : Buffers F)
    (state : grid (complex F)) (time : F) :
  is_ok (timeDerivatives ext self buf state time)
  = is_ok (timeDerivatives ext self' buf state time).
Proof.
  unfold timeDerivatives.
  pose proof (spectral_laplacian_ok_any_self ext self self' state) as Hlap.
  destruct (spectral_laplacian ext self state),
           (spectral_laplacian ext self' state); try discriminate;
    [| reflexivity].
  cbn [bindE].
  destruct (interpolateNoise (nr1 buf) (nr2 buf) (time / maxTime buf)%num);
    [| reflexivity].
  cbn [bindE].
  destruct (String.eqb (noiseType self) "diffusive"),
           (String.eqb (noiseType self) "multiplicative"),
           (String.eqb (noiseType self') "diffusive"),
           (String.eqb (noiseType self') "multiplicative"); reflexivity.
Qed.

Lemma diffusive_term_R (self : NCGL R) (l : complex R) (n : R) :
  diffusive_term self l n
  = mkC (sigma_r self * re l * n / Cabs l)%R
        (sigma_r self * im l * n / Cabs l)%R.
Proof.
  unfold diffusive_term.
  rewrite Cdiv_real, Cmul_real_r, Cmul_real_l; reflexivity.
Qed.

(** C4, as the code has it: the diffusive branch has no test on the
    magnitude of the Laplacian and raises nothing of its own, so the call
    fails exactly when it fails for every other configuration; in exact
    arithmetic the term [sigma_r*lap*tnr2/|lap|] at a cell whose Laplacian
    is not zero is the direction [lap/|lap|] times [sigma_r*tnr2], of
    magnitude [|sigma_r*tnr2|]. *)
Theorem C4_diffusive_term_unguarded :
  (forall (F : Type) (NF : Num F) (ext : Externals F) (self self' : NCGL F)
          (buf : Buffers F) (state : grid (complex F)) (time : F),
      is_ok (timeDerivatives ext self buf state time)
      = is_ok (timeDerivatives ext self' buf state time))
  /\ (forall (self : NCGL R) (l : complex R) (n : R),
         l <> Czero ->
         diffusive_term self l n
         = mkC (sigma_r self * n * (re l / Cabs l))%R
               (sigma_r self * n * (im l / Cabs l))%R
         /\ Cabs (diffusive_term self l n) = Rabs (sigma_r self * n)).
Proof.
  split.
  - intros; apply timeDerivatives_ok_any_self.
  - intros self l n Hl.
    assert (Hpos : (0 < Cabs l)%R).
    { destruct (Cabs_nonneg l) as [Hlt | Heq]; [exact Hlt |].
      symmetry in Heq; apply Cabs_zero_iff in Heq; contradiction. }
    rewrite diffusive_term_R; split.
    + apply complex_eq; cbn [re im]; field; lra.
    + pose proof (Cabs_sq l) as Hsq; unfold sq in Hsq; cbn [mul Num_R] in Hsq.
      unfold Cabs at 1, sq; cbn [re im add mul fsqrt Num_R].
      rewrite <- sqrt_Rsqr_abs; f_equal; unfold Rsqr.
      transitivity (sigma_r self * n * (sigma_r self * n)
                    * ((re l * re l + im l * im l) / (Cabs l * Cabs l)))%R.
      * field; lra.
      * rewrite <- Hsq; field; lra.
Qed.

(** [sigma_r = 3], [tnr2 = 2] and the Laplacian [1 + 0j]. *)
Lemma C4_diffusive_term_unguarded_witness :
  diffusive_term
    (mkNCGL 1%R 1%R (1 / 100)%R 1%R "r" 8 2 3%R "diffusive" 1%R [])
    (mkC 1%R 0%R) 2%R
  = mkC (3 * 2 * (1 / Cabs (mkC 1%R 0%R)))%R (3 * 2 * (0 / Cabs (mkC 1%R 0%R)))%R
  /\ Cabs (diffusive_term
             (mkNCGL 1%R 1%R (1 / 100)%R 1%R "r" 8 2 3%R "diffusive" 1%R [])
             (mkC 1%R 0%R) 2%R)
     = Rabs (3 * 2).
Proof.
  apply (proj2 C4_diffusive_term_unguarded
           (mkNCGL 1%R 1%R (1 / 100)%R 1%R "r" 8 2 3%R "diffusive" 1%R [])
           (mkC 1%R 0%R) 2%R).
  unfold Czero, zero; cbn; intros Heq.
  apply (f_equal re) in Heq; cbn in Heq; lra.
Defined.

(** ** The spectral Laplacian *)

(** In exact arithmetic the recombination leaves the real component as the
    transform delivers it and divides the imaginary one by [h*h]. *)
Lemma laplacian_R (ext : Externals R) (self : NCGL R) (fx fy : list R)
    (rFtState iFtState : grid (complex R)) :
  laplacian ext self fx fy rFtState iFtState
  = gzip (fun a b => mkC a (b / (h self * h self))%R)
         (spectral_part ext fx fy rFtState)
         (spectral_part ext fx fy iFtState).
Proof.
  unfold laplacian, gzip.
  apply zipWith_ext; intros r1 r2.
  apply zipWith_ext; intros a b.
  rewrite Cdiv_real.
  unfold Cadd, Cmul, Ci, RtoC, sq, zero, one; cbn.
  apply complex_eq; cbn; unfold Rdiv; ring.
Qed.

(** Values of [cos] and [sin] at arguments that are zero once simplified;
    the others are abstracted, their coefficients being zero. *)
Ltac trig_args :=
  repeat match goal with
         | |- context [cos 0] => rewrite cos_0
         | |- context [sin 0] => rewrite sin_0
         | |- context [cos ?e] =>
             first [ replace e with 0%R by (cbn; lra)
                   | let c := fresh "c" in generalize (cos e); intro c ]
         | |- context [sin ?e] =>
             first [ replace e with 0%R by (cbn; lra)
                   | let c := fresh "c" in generalize (sin e); intro c ]
         end.

(** The transform of the unit impulse at the origin of a grid of side two
    is constant. *)
Lemma dft2_impulse :
  dft2 [[RtoC 1%R; RtoC 0%R]; [RtoC 0%R; RtoC 0%R]]
  = [[mkC 1%R 0%R; mkC 1%R 0%R]; [mkC 1%R 0%R; mkC 1%R 0%R]].
Proof.
  unfold dft2, dft_entry, indexed, Csum, Czero, RtoC, zero.
  cbn [length hd seq map combine fold_right fst snd ofZ Num_R].
  repeat (f_equal; try (apply complex_eq; cbn [re im Cadd Cmul cis add sub mul Num_R INR];
                        trig_args; ring)).
Qed.

(** C1: the recombination [A + 1j*B/(h**2)] divides only the imaginary
    component by [h*h]: for every state and spacing the real component of
    the Laplacian is the transform's real component as it is.  With [h = 2]
    and the impulse [1 + 1j] at the origin of a grid of side two, the cell
    at the origin gets [-pi^2] as real part, not [-pi^2/4], next to the
    imaginary part [-pi^2/4]. *)
Theorem C1_laplacian_real_part_unscaled :
  (forall (ext : Externals R) (self : NCGL R) (fx fy : list R)
          (rFtState iFtState : grid (complex R)),
      laplacian ext self fx fy rFtState iFtState
      = gzip (fun a b => mkC a (b / (h self * h self))%R)
             (spectral_part ext fx fy rFtState)
             (spectral_part ext fx fy iFtState))
  /\ (exists lap,
         spectral_laplacian ext_R spacing_two impulse_state = Ok lap
         /\ hd Czero (hd [] lap) = mkC (- (PI * PI))%R (- (PI * PI) / 4)%R)
  /\ (- (PI * PI) <> - (PI * PI) / (2 * 2))%R.
Proof.
  split; [exact laplacian_R | split].
  - eexists; split.
    + unfold spectral_laplacian, impulse_state.
      cbn [length hd np_fftfreq Nat.eqb bindE gmap map re im ext_R fftn].
      fold (RtoC 1%R) (RtoC 0%R); rewrite dft2_impulse; reflexivity.
    + rewrite laplacian_R.
      unfold spectral_part; cbn [ext_R ifftn].
      unfold spectral_scale, gzip, gmap, idft2, dft_entry, indexed, Csum.
      cbn [length hd seq map combine fold_right fst snd zipWith
             zrange app Nat.sub Nat.div Nat.add Nat.divmod
             Z.of_nat Z.opp Z.add Pos.of_succ_nat Pos.succ spacing_two h].
      rewrite !Cdiv_real.
      unfold Czero, RtoC, zero, one, sq.
      apply complex_eq;
        cbn [re im Cadd Csub Cmul cis add sub mul div neg ofZ pi Num_R INR];
        trig_args; field.
  - pose proof PI_RGT_0; nra.
Qed.

(** ** Configuration and the first steps of a run *)

(** With [ic = 'r'] and a side that is not negative the initial condition
    is generated: two draws of [msize^2] samples. *)
Lemma getInitialCondition_random {F : Type} {NF : Num F} (ext : Externals F)
    (self : NCGL F) (log : list event) :
  ic self = "r"%string -> (0 <= msize self)%Z ->
  exists state,
    getInitialCondition ext self log
    = (Ok state,
       log ++ [EvRand (Z.to_nat (msize self ^ 2));
               EvRand (Z.to_nat (msize self ^ 2))]).
Proof.
  intros Hic Hm; unfold getInitialCondition; rewrite Hic, String.eqb_refl.
  unfold bindM, getRandom, retM.
  destruct (Z.ltb_spec (msize self) 0) as [Hneg | _]; [lia |].
  eexists; rewrite <- app_assoc; reflexivity.
Qed.

Lemma getInitialCondition_other_ic {F : Type} {NF : Num F}
    (ext : Externals F) (self : NCGL F) (log : list event) :
  ic self <> "r"%string ->
  getInitialCondition ext self log
  = (Raise (if (msize self <? 0)%Z then ValueError else TypeError), log).
Proof.
  intros Hic; apply String.eqb_neq in Hic.
  unfold getInitialCondition; rewrite Hic.
  unfold bindM, getGaussian, liftM.
  destruct (msize self <? 0)%Z; reflexivity.
Qed.

Lemma getInitialCondition_negative_side {F : Type} {NF : Num F}
    (ext : Externals F) (self : NCGL F) (log : list event) :
  ic self = "r"%string -> (msize self < 0)%Z ->
  getInitialCondition ext self log
  = (Raise ValueError, log ++ [EvRand (Z.to_nat (msize self ^ 2))]).
Proof.
  intros Hic Hneg; unfold getInitialCondition.
  rewrite Hic, String.eqb_refl; unfold bindM, getRandom.
  destruct (Z.ltb_spec (msize self) 0); [reflexivity | lia].
Qed.




(** ** Shapes *)

Lemma Forall_zipWith {A B C : Type} (P : A -> Prop) (Q : B -> Prop)
    (T : C -> Prop) (f : A -> B -> C) (l : list A) (m : list B) :
  (forall a b, P a -> Q b -> T (f a b)) ->
  Forall P l -> Forall Q m -> Forall T (zipWith f l m).
Proof.
  intros Hf Hl; revert m; induction Hl as [| a l Ha Hl IH];
    intros m Hm; [constructor |].
  destruct Hm as [| b m Hb Hm]; cbn; constructor; auto.
Qed.

Lemma has_shape_gzip {A B C : Type} (f : A -> B -> C) (r c : nat)
    (g : grid A) (g' : grid B) :
  has_shape r c g -> has_shape r c g' -> has_shape r c (gzip f g g').
Proof.
  intros [Hr Hc] [Hr' Hc']; split.
  - unfold gzip; rewrite zipWith_length; lia.
  - unfold gzip.
    apply (Forall_zipWith (fun row => length row = c)
             (fun row => length row = c)); auto.
    intros a b Ha Hb; rewrite zipWith_length; lia.
Qed.

Lemma has_shape_gmap {A B : Type} (f : A -> B) (r c : nat) (g : grid A) :
  has_shape r c g -> has_shape r c (gmap f g).
Proof.
  intros [Hr Hc]; split.
  - unfold gmap; rewrite length_map; exact Hr.
  - unfold gmap; apply Forall_map.
    eapply Forall_impl; [| exact Hc].
    intros row Hrow; cbn; rewrite length_map; exact Hrow.
Qed.

Section ShapesOfArithmetic.
Context {F : Type} {NF : Num F}.

Lemma has_shape_add_c (r c : nat) (g g' : grid (complex F)) :
  has_shape r c g -> has_shape r c g' -> has_shape r c (e_add (F:=F) g g').
Proof. apply (has_shape_gzip Cadd). Qed.

Lemma has_shape_sub_c (r c : nat) (g g' : grid (complex F)) :
  has_shape r c g -> has_shape r c g' -> has_shape r c (e_sub (F:=F) g g').
Proof. apply (has_shape_gzip Csub). Qed.

Lemma has_shape_scale_c (r c : nat) (x : F) (g : grid (complex F)) :
  has_shape r c g -> has_shape r c (e_scale x g).
Proof. apply (has_shape_gmap (fun z => Cmul (RtoC x) z)). Qed.

Lemma has_shape_rmul_c (r c : nat) (x : F) (g : grid (complex F)) :
  has_shape r c g -> has_shape r c (e_rmul g x).
Proof. apply (has_shape_gmap (fun z => Cmul z (RtoC x))). Qed.

Lemma has_shape_rdiv_c (r c : nat) (x : F) (g : grid (complex F)) :
  has_shape r c g -> has_shape r c (e_rdiv g x).
Proof. apply (has_shape_gmap (fun z => Cdiv z (RtoC x))). Qed.

Lemma has_shape_add_r (r c : nat) (g g' : grid F) :
  has_shape r c g -> has_shape r c g' -> has_shape r c (e_add (F:=F) g g').
Proof. apply (has_shape_gzip add). Qed.

Lemma has_shape_scale_r (r c : nat) (x : F) (g : grid F) :
  has_shape r c g -> has_shape r c (e_scale x g).
Proof. apply (has_shape_gmap (mul x)). Qed.

Lemma has_shape_rdiv_r (r c : nat) (x : F) (g : grid F) :
  has_shape r c g -> has_shape r c (e_rdiv g x).
Proof. apply (has_shape_gmap (fun s => div s x)). Qed.

Lemma np_fftfreq_ok (n : nat) :
  (1 <= n)%nat -> exists fs, np_fftfreq (F:=F) n = Ok fs /\ length fs = n.
Proof.
  intros Hn; unfold np_fftfreq.
  destruct (Nat.eqb_spec n 0) as [-> | _]; [lia |].
  eexists; split; [reflexivity |].
  rewrite length_map, length_app, !zrange_length.
  pose proof (Nat.div_mod_eq (n - 1) 2) as H1.
  pose proof (Nat.div_mod_eq n 2) as H2.
  pose proof (Nat.mod_upper_bound (n - 1) 2) as H3.
  pose proof (Nat.mod_upper_bound n 2) as H4.
  lia.
Qed.

Lemma np_max_ok (r c : nat) (g : grid F) :
  (1 <= r)%nat -> (1 <= c)%nat -> has_shape r c g ->
  exists x, np_max g = Ok x.
Proof.
  intros Hr Hc [Hlen Hrows]; unfold np_max.
  destruct g as [| row g]; cbn [length] in Hlen; [lia |].
  pose proof (Forall_inv Hrows) as Hrow; cbn beta in Hrow.
  destruct row as [| x row]; cbn [length] in Hrow; [lia |].
  cbn [concat app]; eexists; reflexivity.
Qed.
End ShapesOfArithmetic.

(** ** What the run assumes of its collaborators *)

Lemma has_shape_const_grid {A : Type} (a : A) (r c : nat) :
  has_shape r c (const_grid a r c).
Proof.
  split; unfold const_grid.
  - apply repeat_length.
  - apply Forall_forall; intros row Hin.
    apply repeat_spec in Hin; subst row; apply repeat_length.
Qed.

Lemma has_shape_hd {A : Type} (r c : nat) (g : grid A) :
  (1 <= r)%nat -> has_shape r c g -> length (hd [] g) = c.
Proof.
  intros Hr [Hlen Hrows]; destruct g as [| row g]; cbn [length] in Hlen;
    [lia |].
  exact (Forall_inv Hrows).
Qed.

Lemma has_shape_table {A : Type} (f : nat -> nat -> A) (r c : nat) :
  has_shape r c (map (fun u => map (fun v => f u v) (seq 0 c)) (seq 0 r)).
Proof.
  split.
  - rewrite length_map, length_seq; reflexivity.
  - apply Forall_map, Forall_forall; intros u _.
    rewrite length_map, length_seq; reflexivity.
Qed.

Lemma ext_R_contract : ext_contract ext_R.
Proof.
  split; [| split].
  - intros k n; apply repeat_length.
  - intros k beta f m std Hf Hm; cbn [cNoise3 ext_R ramp_noise3].
    destruct (Z.ltb_spec f 0); [lia |].
    destruct (Z.ltb_spec m 0); [lia |].
    cbn [orb]; eexists; split; [reflexivity | split].
    + rewrite length_map, zrange_length; reflexivity.
    + apply Forall_map, Forall_forall; intros i _; apply has_shape_const_grid.
  - intros r c X HX; cbn [fftn ifftn ext_R]; unfold dft2, idft2.
    destruct HX as [Hlen Hrows].
    destruct (Nat.eq_dec r 0) as [-> | Hr].
    + destruct X; [| discriminate]; split; split; cbn; auto.
    + rewrite (has_shape_hd r c X) by (try lia; split; assumption).
      rewrite Hlen; split; apply has_shape_table.
Qed.

(** ** The spectral Laplacian keeps the shape of the state *)

Section ShapeOfDerivative.
Context {F : Type} {NF : Num F}.
Variable ext : Externals F.
Hypothesis Hext : ext_contract ext.

Lemma has_shape_spectral_part (m : nat) (fx fy : list F)
    (Ft : grid (complex F)) :
  length fx = m -> length fy = m -> has_shape m m Ft ->
  has_shape m m (spectral_part ext fx fy Ft).
Proof.
  intros Hfx Hfy [Hlen Hrows]; unfold spectral_part.
  apply has_shape_gmap, (proj2 (proj2 Hext)); split.
  - unfold spectral_scale; rewrite zipWith_length; lia.
  - unfold spectral_scale.
    apply (Forall_zipWith (fun _ => True) (fun row => length row = m));
      [| apply Forall_forall; auto | exact Hrows].
    intros fyu row _ Hrow; rewrite zipWith_length; lia.
Qed.

Lemma spectral_laplacian_ok (self : NCGL F) (m : nat)
    (state : grid (complex F)) :
  (1 <= m)%nat -> has_shape m m state ->
  exists lap, spectral_laplacian ext self state = Ok lap /\ has_shape m m lap.
Proof.
  intros Hm Hst; unfold spectral_laplacian.
  rewrite (has_shape_hd m m state Hm Hst), (proj1 Hst).
  destruct (np_fftfreq_ok (F:=F) m Hm) as (fs & -> & Hfs); cbn [bindE].
  eexists; split; [reflexivity |].
  unfold laplacian; apply has_shape_gzip;
    apply has_shape_spectral_part; try (rewrite length_map; exact Hfs);
    apply (proj2 (proj2 Hext)), has_shape_gmap; exact Hst.
Qed.

Lemma has_shape_reaction (self : NCGL F) (m : nat)
    (state : grid (complex F)) (t : F) :
  has_shape m m state -> has_shape m m (reaction self state t).
Proof. apply has_shape_gmap. Qed.

(** [timeDerivatives] returns a grid of the shape of the state whenever the
    noise lookup succeeds with frames of that shape. *)
Lemma timeDerivatives_ok (self : NCGL F) (buf : Buffers F) (m : nat)
    (state : grid (complex F)) (time : F) (tn : grid F * grid F) :
  (1 <= m)%nat -> has_shape m m state ->
  interpolateNoise (nr1 buf) (nr2 buf) (time / maxTime buf)%num = Ok tn ->
  has_shape m m (fst tn) -> has_shape m m (snd tn) ->
  exists out,
    timeDerivatives ext self buf state time = Ok out /\ has_shape m m out.
Proof.
  intros Hm Hst Htn H1 H2; unfold timeDerivatives.
  destruct (spectral_laplacian_ok self m state Hm Hst) as (lap & -> & Hlap).
  cbn [bindE]; rewrite Htn; cbn [bindE].
  assert (Hdrift : has_shape m m
            (gzip Cadd
               (gmap (fun l => (RtoC one + RtoC (c1 self) * Ci) * l)%C lap)
               (reaction self state time))).
  { apply has_shape_gzip;
      [apply has_shape_gmap; exact Hlap | apply has_shape_reaction; exact Hst]. }
  destruct (String.eqb (noiseType self) "diffusive");
    [| destruct (String.eqb (noiseType self) "multiplicative")];
    eexists; (split; [reflexivity |]);
    apply has_shape_gzip; try exact Hdrift.
  - apply has_shape_gzip; assumption.
  - apply has_shape_gzip; assumption.
  - apply has_shape_gmap; assumption.
Qed.
End ShapeOfDerivative.

(** ** The noise buffer during a run *)

Lemma has_shape_sub_r {F : Type} {NF : Num F} (r c : nat) (g g' : grid F) :
  has_shape r c g -> has_shape r c g' -> has_shape r c (e_sub (F:=F) g g').
Proof. apply (has_shape_gzip sub). Qed.

Lemma Forall_gradient_interior {F : Type} {NF : Num F} (m : nat)
    (f : list (grid F)) :
  Forall (has_shape m m) f -> Forall (has_shape m m) (gradient_interior f).
Proof.
  induction f as [| a tl IH]; intros Hf; [constructor |].
  destruct tl as [| b [| c tl']]; try constructor.
  - apply has_shape_rdiv_r, has_shape_sub_r.
    + exact (Forall_inv (Forall_inv_tail (Forall_inv_tail Hf))).
    + exact (Forall_inv Hf).
  - apply IH; exact (Forall_inv_tail Hf).
Qed.

(** The rate view has the frames and the shape of the raw view. *)
Lemma np_gradient_frames_ok {F : Type} {NF : Num F} (m : nat)
    (f : list (grid F)) :
  (2 <= m)%nat -> (2 <= length f)%nat -> Forall (has_shape m m) f ->
  exists g,
    np_gradient_frames f = Ok g /\ length g = length f
    /\ Forall (has_shape m m) g.
Proof.
  intros Hm Hlen Hf; unfold np_gradient_frames.
  destruct (np_gradient_ok f Hlen) as (g & Hg & Hlg).
  rewrite Hg; cbn [bindE].
  assert (Hrev : Forall (has_shape m m) (rev f)) by (apply Forall_rev; exact Hf).
  assert (Hshape : Forall (has_shape m m) g).
  { unfold np_gradient in Hg.
    destruct f as [| a [| b tl]]; try discriminate.
    destruct (rev (a :: b :: tl)) as [| z [| y tl']]; try discriminate.
    pose proof (Forall_gradient_interior m _ Hf) as Hint.
    remember (gradient_interior (a :: b :: tl)) as gi eqn:Hgi.
    injection Hg as <-.
    constructor; [| apply Forall_app; split].
    - apply has_shape_rdiv_r, has_shape_sub_r.
      + exact (Forall_inv (Forall_inv_tail Hf)).
      + exact (Forall_inv Hf).
    - exact Hint.
    - constructor; [| constructor].
      apply has_shape_rdiv_r, has_shape_sub_r.
      + exact (Forall_inv Hrev).
      + exact (Forall_inv (Forall_inv_tail Hrev)). }
  destruct f as [| a tl]; cbn [length] in Hlen; [lia |].
  pose proof (Forall_inv Hf) as Ha; cbn [hd].
  rewrite (has_shape_hd m m a) by (try lia; exact Ha).
  rewrite (proj1 Ha).
  destruct (Nat.ltb_spec m 2); [lia |]; cbn [orb].
  exists g; repeat split; assumption.
Qed.

Lemma nth_error_Forall {A : Type} (P : A -> Prop) (l : list A) (k : nat)
    (a : A) :
  Forall P l -> nth_error l k = Some a -> P a.
Proof.
  intros Hall Hnth; apply nth_error_In in Hnth.
  rewrite Forall_forall in Hall; auto.
Qed.

(** A normalized time in [0, 1] finds its two frames. *)
Lemma interpolateNoise_ok (m n : nat) (buf : Buffers R) (tau : R) :
  (1 <= n)%nat -> good_buffers m n buf -> (0 <= tau <= 1)%R ->
  exists tn,
    interpolateNoise (nr1 buf) (nr2 buf) tau = Ok tn
    /\ has_shape m m (fst tn) /\ has_shape m m (snd tn).
Proof.
  intros Hn (Hl1 & Hl2 & Hs1 & Hs2) Htau.
  unfold interpolateNoise; rewrite Hl1.
  cbn [ofZ mul floorZ ceilZ Num_R bindE].
  set (x := (IZR (Z.of_nat n - 1) * tau)%R).
  assert (Hx : (0 <= x <= IZR (Z.of_nat n - 1))%R).
  { assert (Hpos : (0 <= IZR (Z.of_nat n - 1))%R) by (apply IZR_le; lia).
    unfold x; split; nra. }
  assert (Hfl : (0 <= R_floor x < Z.of_nat n)%Z).
  { pose proof (R_floor_bounds x) as Hb; split.
    - assert (Hlt : (IZR (-1) < IZR (R_floor x))%R) by (cbn; lra).
      apply lt_IZR in Hlt; lia.
    - assert (Hle : (IZR (R_floor x) <= IZR (Z.of_nat n - 1))%R) by lra.
      apply le_IZR in Hle; lia. }
  assert (Hce : (0 <= R_ceil x < Z.of_nat n)%Z).
  { pose proof (R_ceil_bounds x) as Hb; split.
    - assert (Hle : (IZR 0 <= IZR (R_ceil x))%R) by (cbn; lra).
      apply le_IZR in Hle; exact Hle.
    - assert (Hlt : (IZR (R_ceil x) < IZR (Z.of_nat n))%R).
      { rewrite minus_IZR in Hx; lra. }
      apply lt_IZR in Hlt; exact Hlt. }
  destruct (py_index_ok (np_linspace01 (F:=R) n) (R_floor x)) as (t1 & -> & _);
    [rewrite np_linspace01_length; exact Hfl |].
  destruct (py_index_ok (np_linspace01 (F:=R) n) (R_ceil x)) as (t2 & -> & _);
    [rewrite np_linspace01_length; exact Hce |].
  destruct (py_index_ok (nr1 buf) (R_floor x)) as (mr1 & -> & Hmr1);
    [rewrite Hl1; exact Hfl |].
  destruct (py_index_ok (nr1 buf) (R_ceil x)) as (mr2 & -> & Hmr2);
    [rewrite Hl1; exact Hce |].
  destruct (py_index_ok (nr2 buf) (R_floor x)) as (md1 & -> & Hmd1);
    [rewrite Hl2; exact Hfl |].
  destruct (py_index_ok (nr2 buf) (R_ceil x)) as (md2 & -> & Hmd2);
    [rewrite Hl2; exact Hce |].
  cbn [bindE].
  pose proof (nth_error_Forall _ _ _ _ Hs1 Hmr1).
  pose proof (nth_error_Forall _ _ _ _ Hs1 Hmr2).
  pose proof (nth_error_Forall _ _ _ _ Hs2 Hmd1).
  pose proof (nth_error_Forall _ _ _ _ Hs2 Hmd2).
  destruct (ltb _ _); eexists; (split; [reflexivity |]); cbn [fst snd];
    split; try assumption;
    apply has_shape_add_r; apply has_shape_rdiv_r, has_shape_scale_r;
    assumption.
Qed.

(** In exact arithmetic [timeDerivatives] succeeds at every time of the
    run, between 0 and [maxTime]. *)
Lemma timeDerivatives_run (ext : Externals R) (self : NCGL R)
    (buf : Buffers R) (m n : nat) (state : grid (complex R)) (time : R) :
  ext_contract ext -> (1 <= m)%nat -> (1 <= n)%nat ->
  good_buffers m n buf -> (0 < maxTime buf)%R ->
  has_shape m m state -> (0 <= time <= maxTime buf)%R ->
  exists out,
    timeDerivatives ext self buf state time = Ok out /\ has_shape m m out.
Proof.
  intros Hext Hm Hn Hbuf Hmax Hst Htime.
  destruct (interpolateNoise_ok m n buf (time / maxTime buf)%R Hn Hbuf)
    as (tn & Htn & H1 & H2).
  { split.
    - apply Rmult_le_pos; [lra | left; apply Rinv_0_lt_compat; exact Hmax].
    - apply Rmult_le_reg_r with (r := maxTime buf); [exact Hmax |].
      replace (time / maxTime buf * maxTime buf)%R with time by (field; lra).
      lra. }
  exact (timeDerivatives_ok ext Hext self buf m state time tn Hm Hst Htn H1 H2).
Qed.

(** ** One step of the adaptive loop *)

Create HintDb shape.
#[local] Hint Resolve has_shape_add_c has_shape_sub_c has_shape_scale_c
  has_shape_rmul_c has_shape_rdiv_c : shape.

Section RunInExactArithmetic.
Variable ext : Externals R.
Variable self : NCGL R.
Variable buf : Buffers R.
Variables m n : nat.
Hypothesis Hext : ext_contract ext.
Hypothesis Hm : (1 <= m)%nat.
Hypothesis Hn : (1 <= n)%nat.
Hypothesis Hbuf : good_buffers m n buf.
Hypothesis Hmax : (0 < maxTime buf)%R.

Ltac stage_call :=
  match goal with
  | |- context [bindE (timeDerivatives ext self buf ?st ?tm) _] =>
      let d := fresh "d" in
      let Hd := fresh "Hd" in
      let Hs := fresh "Hs" in
      destruct (timeDerivatives_run ext self buf m n st tm Hext Hm Hn Hbuf Hmax)
        as (d & Hd & Hs);
      [ solve [auto 20 with shape]
      | solve [cbn [add sub mul div ofZ Num_R]; lra]
      | rewrite Hd; cbn [bindE] ]
  end.

Lemma stages_ok (state : grid (complex R)) (t step : R) :
  has_shape m m state ->
  (0 <= t)%R -> (0 <= step)%R -> (t + step <= maxTime buf)%R ->
  exists ks, stages ext self buf state t step = Ok ks /\ stages_shape m ks.
Proof.
  intros Hst Ht Hstep Hend; unfold stages; cbv zeta.
  do 6 stage_call.
  eexists; split; [reflexivity |].
  unfold stages_shape; cbn [k1 k2 k3 k4 k5 k6];
    repeat match goal with |- _ /\ _ => split end; auto with shape.
Qed.

Lemma local_error_ok (state : grid (complex R)) (ks : Stages) :
  has_shape m m state -> stages_shape m ks ->
  exists err, local_error state ks = Ok err.
Proof.
  intros Hst (H1 & H2 & H3 & H4 & H5 & H6); unfold local_error.
  apply (np_max_ok m m); try exact Hm.
  apply has_shape_gmap; unfold approach4, approach5; auto 20 with shape.
Qed.

Lemma has_shape_approach4 (state : grid (complex R)) (ks : Stages) :
  has_shape m m state -> stages_shape m ks ->
  has_shape m m (approach4 state ks).
Proof.
  intros Hst (H1 & H2 & H3 & H4 & H5 & H6); unfold approach4;
    auto 20 with shape.
Qed.

(** The corrected step is positive and shorter than [dt]. *)
Lemma corrected_step_bounds (dt tol err : R) :
  (0 < dt)%R -> (0 < tol)%R -> (tol < err)%R ->
  (0 < dt * sqrt (sqrt (tol / (2 * err))) < dt)%R.
Proof.
  intros Hdt Htol Herr.
  set (x := (tol / (2 * err))%R).
  assert (Hx : (0 < x < 1)%R).
  { unfold x; split.
    - apply Rdiv_lt_0_compat; lra.
    - apply Rmult_lt_reg_r with (r := (2 * err)%R); [lra |].
      replace (tol / (2 * err) * (2 * err))%R with tol by (field; lra).
      lra. }
  assert (Hs : (0 < sqrt x < 1)%R).
  { split; [apply sqrt_lt_R0; lra |].
    rewrite <- sqrt_1; apply sqrt_lt_1; lra. }
  assert (Hss : (0 < sqrt (sqrt x) < 1)%R).
  { split; [apply sqrt_lt_R0; lra |].
    rewrite <- sqrt_1; apply sqrt_lt_1; lra. }
  nra.
Qed.

(** One iteration: the state keeps its shape, the time advances by a
    positive amount of at most [dt], the time is recorded, and the state is
    recorded when the index is in [stepsave]. *)
Lemma rkf_step_ok (dt tol : R) (state : grid (complex R)) (t : R) :
  (0 < dt)%R -> (0 < tol)%R ->
  has_shape m m state -> (0 <= t)%R -> (t + dt <= maxTime buf)%R ->
  exists state' t',
    has_shape m m state' /\ (t < t' <= t + dt)%R
    /\ forall stepsave time times states,
        rkf_step ext self buf dt tol stepsave time
          (mkLoop state t times states)
        = Ok (mkLoop state' t' (times ++ [t'])
                (if saved stepsave time then states ++ [state'] else states)).
Proof.
  intros Hdt Htol Hst Ht Hend.
  destruct (stages_ok state t dt Hst Ht) as (ks & Hks & Hsh); try lra.
  destruct (local_error_ok state ks Hst Hsh) as (err & Herr).
  destruct (Rlt_dec tol err) as [Hbig | Hsmall].
  - destruct (corrected_step_bounds dt tol err Hdt Htol Hbig) as [Hlo Hhi].
    destruct (stages_ok state t (dt * sqrt (sqrt (tol / (2 * err))))%R Hst Ht)
      as (ks' & Hks' & Hsh'); try lra.
    exists (approach4 state ks'), (t + dt * sqrt (sqrt (tol / (2 * err))))%R.
    split; [apply has_shape_approach4; assumption | split; [lra |]].
    intros stepsave time times states; unfold rkf_step.
    cbn [l_state l_t l_times l_states].
    rewrite Hks; cbn [bindE]; rewrite Herr; cbn [bindE].
    cbn [ltb pow_quarter mul div ofZ add Num_R].
    rewrite (R_ltb_true _ _ Hbig), Hks'; reflexivity.
  - exists (approach4 state ks), (t + dt)%R.
    split; [apply has_shape_approach4; assumption | split; [lra |]].
    intros stepsave time times states; unfold rkf_step.
    cbn [l_state l_t l_times l_states].
    rewrite Hks; cbn [bindE]; rewrite Herr; cbn [bindE].
    cbn [ltb Num_R].
    rewrite R_ltb_false by lra; reflexivity.
Qed.
End RunInExactArithmetic.

(** ** The whole loop *)

Lemma snapshots_nil {A : Type} (stepsave : list Z) (first : nat) :
  snapshots (A:=A) stepsave first [] = [].
Proof. reflexivity. Qed.

Lemma snapshots_cons {A : Type} (stepsave : list Z) (first : nat) (s : A)
    (ss : list A) :
  snapshots stepsave first (s :: ss)
  = if saved stepsave first then s :: snapshots stepsave (S first) ss
    else snapshots stepsave (S first) ss.
Proof.
  unfold snapshots; cbn [length seq combine filter fst].
  destruct (saved stepsave first); reflexivity.
Qed.


Section LoopInExactArithmetic.
Variable ext : Externals R.
Variable self : NCGL R.
Variable buf : Buffers R.
Variables m n : nat.
Hypothesis Hext : ext_contract ext.
Hypothesis Hm : (1 <= m)%nat.
Hypothesis Hn : (1 <= n)%nat.
Hypothesis Hbuf : good_buffers m n buf.
Hypothesis Hmax : (0 < maxTime buf)%R.
Variables dt tol : R.
Hypothesis Hdt : (0 < dt)%R.
Hypothesis Htol : (0 < tol)%R.

(** [cnt] iterations from step [first]: one time per step, and the states
    of the steps in [stepsave]; the trajectory does not depend on
    [stepsave]. *)
Lemma rkf_loop_ok (cnt : nat) :
  forall (first : nat) (state : grid (complex R)) (t : R),
    has_shape m m state -> (0 <= t)%R ->
    (t + INR cnt * dt <= maxTime buf)%R ->
    exists ts ss state' t',
      length ts = cnt /\ length ss = cnt /\ advances t dt ts
      /\ forall stepsave times states,
          rkf_loop ext self buf dt tol stepsave (seq first cnt)
            (mkLoop state t times states)
          = Ok (mkLoop state' t' (times ++ ts)
                  (states ++ snapshots stepsave first ss)).
Proof.
  induction cnt as [| cnt IH]; intros first state t Hst Ht Hend.
  - exists [], [], state, t; repeat split.
    intros stepsave times states; cbn [seq rkf_loop].
    rewrite snapshots_nil, !app_nil_r; reflexivity.
  - rewrite S_INR in Hend; pose proof (pos_INR cnt) as Hcnt.
    destruct (rkf_step_ok ext self buf m n Hext Hm Hn Hbuf Hmax dt tol state t
                Hdt Htol Hst Ht)
      as (state1 & t1 & Hst1 & Ht1 & Hstep); [nra |].
    destruct (IH (S first) state1 t1 Hst1) as (ts & ss & state' & t' & Hlt
                                                 & Hls & Hadv & Hloop);
      [lra | nra |].
    exists (t1 :: ts), (state1 :: ss), state', t'.
    split; [cbn; lia | split; [cbn; lia | split; [cbn; auto |]]].
    intros stepsave times states; cbn [seq rkf_loop].
    rewrite Hstep; cbn [bindE]; rewrite Hloop, snapshots_cons.
    rewrite <- app_assoc; cbn [app].
    destruct (saved stepsave first); [rewrite <- app_assoc |]; reflexivity.
Qed.
End LoopInExactArithmetic.

(** ** The whole run *)

Lemma reshape_rows_shape {F : Type} (r c : nat) :
  forall l : list F,
    length l = (r * c)%nat -> has_shape r c (reshape_rows l r c).
Proof.
  induction r as [| r IH]; intros l Hl; [split; [reflexivity | constructor] |].
  destruct (IH (skipn c l)) as [Hlen Hrows]; [rewrite length_skipn; lia |].
  split; cbn [reshape_rows length]; [lia |].
  constructor; [| exact Hrows].
  rewrite length_firstn; lia.
Qed.

Lemma getInitialCondition_shape {F : Type} {NF : Num F} (ext : Externals F)
    (self : NCGL F) (log : list event) :
  ext_contract ext -> ic self = "r"%string -> (0 <= msize self)%Z ->
  exists state,
    getInitialCondition ext self log
    = (Ok state,
       log ++ [EvRand (Z.to_nat (msize self ^ 2));
               EvRand (Z.to_nat (msize self ^ 2))])
    /\ has_shape (Z.to_nat (msize self)) (Z.to_nat (msize self)) state.
Proof.
  intros Hext Hic Hm; unfold getInitialCondition; rewrite Hic, String.eqb_refl.
  unfold bindM, getRandom, retM.
  destruct (Z.ltb_spec (msize self) 0) as [Hneg | _]; [lia |].
  eexists; split; [rewrite <- app_assoc; reflexivity |].
  assert (Hcount : Z.to_nat (msize self ^ 2)
                   = (Z.to_nat (msize self) * Z.to_nat (msize self))%nat).
  { rewrite Z.pow_2_r, Z2Nat.inj_mul by lia; reflexivity. }
  apply has_shape_gzip; apply reshape_rows_shape;
    rewrite (proj1 Hext); exact Hcount.
Qed.

(** In exact arithmetic a run with random initial condition, a grid of
    side at least two and at least two noise frames completes: every step
    records a time, and the steps in [stepsave] record their state after the
    initial one. *)
Lemma solveRKF45_run (ext : Externals R) (self : NCGL R) (dt : R)
    (ntimes : nat) (tol : R) (log : list event) :
  ext_contract ext -> ic self = "r"%string -> (2 <= msize self)%Z ->
  (2 <= R_trunc (noiseSpeed self * IZR (Z.of_nat ntimes)))%Z ->
  (0 < dt)%R -> (0 < tol)%R ->
  exists state0 ts ss log',
    fst (getInitialCondition ext self log) = Ok state0
    /\ length ts = ntimes /\ length ss = ntimes /\ advances 0 dt ts
    /\ forall stepsave,
        solveRKF45 ext self dt ntimes stepsave tol log
        = (Ok (state0 :: snapshots stepsave 0 ss, ts), log').
Proof.
  intros Hext Hic Hm Hfr Hdt Htol.
  set (frames := R_trunc (noiseSpeed self * IZR (Z.of_nat ntimes))) in *.
  destruct (getInitialCondition_shape ext self log Hext Hic) as (state0 & Hic0 & Hst0);
    [lia |].
  set (log1 := log ++ [EvRand (Z.to_nat (msize self ^ 2));
                       EvRand (Z.to_nat (msize self ^ 2))]) in *.
  set (exponent := match dict_get (noiseArgs self) "beta" with
                   | Some b => b | None => 2%R end).
  set (std := match dict_get (noiseArgs self) "std" with
              | Some s => s | None => ratio 1 100 end).
  destruct (proj1 (proj2 Hext) (length log1) exponent frames (msize self) std)
    as (noise & Hnoise & Hlen & Hshape); try lia.
  destruct (np_gradient_frames_ok (Z.to_nat (msize self)) noise)
    as (rate & Hrate & Hlr & Hsr); try lia; try exact Hshape.
  set (buf := {| nr1 := rate; nr2 := noise;
                 maxTime := (IZR (Z.of_nat ntimes + 2) * dt)%R |}).
  assert (Hmax : (0 < maxTime buf)%R).
  { cbn [maxTime buf]; apply Rmult_lt_0_compat; [apply IZR_lt; lia | exact Hdt]. }
  assert (Hbuf : good_buffers (Z.to_nat (msize self)) (length noise) buf).
  { repeat split; cbn [nr1 nr2 buf]; assumption. }
  destruct (rkf_loop_ok ext self buf (Z.to_nat (msize self)) (length noise)
              Hext ltac:(lia) ltac:(lia) Hbuf Hmax dt tol Hdt Htol
              ntimes 0%nat state0 0%R Hst0)
    as (ts & ss & state' & t' & Hlt & Hls & Hadv & Hloop).
  { lra. }
  { cbn [maxTime buf]; rewrite plus_IZR, <- INR_IZR_INZ.
    pose proof (pos_INR ntimes); nra. }
  exists state0, ts, ss.
  eexists; split; [rewrite Hic0; reflexivity |].
  split; [exact Hlt | split; [exact Hls | split; [exact Hadv |]]].
  intros stepsave; unfold solveRKF45, bindM.
  rewrite Hic0.
  unfold liftM at 1; cbn [truncZ mul ofZ Num_R].
  fold frames; unfold request_noise3.
  fold exponent std log1; rewrite Hnoise.
  unfold liftM at 1; rewrite Hrate.
  unfold liftM, retM; fold buf.
  specialize (Hloop stepsave [] [state0]).
  cbn [ofZ Num_R] in *; rewrite Hloop.
  cbn [l_states l_times app]; reflexivity.
Qed.

(** ** The trace of a run *)




Lemma scenario_frames :
  R_trunc (noiseSpeed scenario * IZR (Z.of_nat 10)) = 5%Z.
Proof.
  replace (noiseSpeed scenario * IZR (Z.of_nat 10))%R with (IZR 5)
    by (cbn; lra).
  apply R_trunc_IZR.
Qed.

(** ** The trajectory behind the trace *)











(** ** The trace against the specification *)







(** * Further properties *)

(** ** The reaction term in components *)

Lemma reaction_scalar_R (self : NCGL R) (a : complex R) (t : R) :
  reaction_scalar self a t
  = mkC (re a - (re a * re a + im a * im a) * (re a - c2 self * im a))%R
        (im a - (re a * re a + im a * im a) * (im a + c2 self * re a))%R.
Proof.
  unfold reaction_scalar.
  rewrite Cmul_real_r, Cabs_sq.
  unfold Csub, Cmul, Cadd, RtoC, Ci, zero, one; cbn.
  apply complex_eq; cbn; ring.
Qed.

Lemma reaction_scalar_zero (self : NCGL R) (t : R) :
  reaction_scalar self Czero t = Czero.
Proof.
  rewrite reaction_scalar_R; unfold Czero, zero; cbn.
  apply complex_eq; cbn; ring.
Qed.

(** Multiplying the amplitude by a number of modulus one multiplies the
    reaction term by it. *)
Lemma reaction_scalar_rotation (self : NCGL R) (u a : complex R) (t t' : R) :
  (re u * re u + im u * im u = 1)%R ->
  reaction_scalar self (Cmul u a) t = Cmul u (reaction_scalar self a t').
Proof.
  intros Hu; rewrite !reaction_scalar_R.
  unfold Cmul; cbn [re im add sub mul Num_R].
  assert (Hm : ((re u * re a - im u * im a) * (re u * re a - im u * im a)
                + (re u * im a + im u * re a) * (re u * im a + im u * re a)
                = re a * re a + im a * im a)%R).
  { transitivity ((re u * re u + im u * im u)
                  * (re a * re a + im a * im a))%R; [ring |].
    rewrite Hu; ring. }
  rewrite Hm; apply complex_eq; cbn [re im]; ring.
Qed.

(** ** Linear steps of the Runge-Kutta chain *)

Lemma half_step_R (a k : complex R) (dt : R) :
  (a + RtoC dt * k / RtoC (ofZ 2))%C
  = mkC (re a + dt * re k / 2)%R (im a + dt * im k / 2)%R.
Proof.
  rewrite Cdiv_real, Cmul_real_l; unfold Cadd; cbn; reflexivity.
Qed.

Lemma full_step_R (a k : complex R) (dt : R) :
  (a + RtoC dt * k)%C = mkC (re a + dt * re k)%R (im a + dt * im k)%R.
Proof. rewrite Cmul_real_l; unfold Cadd; cbn; reflexivity. Qed.

Lemma combine_step_R (a k1 k2 k3 k4 : complex R) (dt : R) :
  (a + RtoC dt * (k1 + RtoC (ofZ 2) * k2 + RtoC (ofZ 2) * k3 + k4)
       / RtoC (ofZ 6))%C
  = mkC (re a + dt * (re k1 + 2 * re k2 + 2 * re k3 + re k4) / 6)%R
        (im a + dt * (im k1 + 2 * im k2 + 2 * im k3 + im k4) / 6)%R.
Proof.
  rewrite Cdiv_real, !Cmul_real_l; unfold Cadd; cbn; reflexivity.
Qed.

Lemma half_step_rotation (u a k : complex R) (dt : R) :
  (Cmul u a + RtoC dt * Cmul u k / RtoC (ofZ 2))%C
  = Cmul u (a + RtoC dt * k / RtoC (ofZ 2))%C.
Proof.
  rewrite !half_step_R; unfold Cmul; cbn [re im add sub mul Num_R].
  apply complex_eq; cbn [re im]; field.
Qed.

Lemma full_step_rotation (u a k : complex R) (dt : R) :
  (Cmul u a + RtoC dt * Cmul u k)%C = Cmul u (a + RtoC dt * k)%C.
Proof.
  rewrite !full_step_R; unfold Cmul; cbn [re im add sub mul Num_R].
  apply complex_eq; cbn [re im]; ring.
Qed.

Lemma combine_step_rotation (u a k1 k2 k3 k4 : complex R) (dt : R) :
  (Cmul u a
   + RtoC dt * (Cmul u k1 + RtoC (ofZ 2) * Cmul u k2
                + RtoC (ofZ 2) * Cmul u k3 + Cmul u k4) / RtoC (ofZ 6))%C
  = Cmul u (a + RtoC dt * (k1 + RtoC (ofZ 2) * k2 + RtoC (ofZ 2) * k3 + k4)
                / RtoC (ofZ 6))%C.
Proof.
  rewrite !combine_step_R; unfold Cmul; cbn [re im add sub mul Num_R].
  apply complex_eq; cbn [re im]; field.
Qed.

Lemma plain_step_rotation (self : NCGL R) (u a : complex R) (dt : R) (i : Z) :
  (re u * re u + im u * im u = 1)%R ->
  plain_step self dt i (Cmul u a) = Cmul u (plain_step self dt i a).
Proof.
  intros Hu; unfold plain_step; cbv zeta.
  rewrite (reaction_scalar_rotation self u a _ (ofZ i * dt)%num Hu).
  rewrite (half_step_rotation u a _ dt).
  rewrite (reaction_scalar_rotation self u _ _
             (ofZ i * dt + dt / ofZ 2)%num Hu).
  rewrite (half_step_rotation u a _ dt).
  rewrite (reaction_scalar_rotation self u _ _
             (ofZ i * dt + dt / ofZ 2)%num Hu).
  rewrite (full_step_rotation u a _ dt).
  rewrite (reaction_scalar_rotation self u _ _
             (ofZ i * dt + dt)%num Hu).
  apply combine_step_rotation.
Qed.

Lemma plain_loop_rotation (self : NCGL R) (u : complex R) (dt : R)
    (steps : list Z) :
  (re u * re u + im u * im u = 1)%R ->
  forall a states,
    plain_loop self dt steps (Cmul u a) (map (Cmul u) states)
    = map (Cmul u) (plain_loop self dt steps a states).
Proof.
  intros Hu; induction steps as [| i rest IH]; intros a states;
    [reflexivity |].
  cbn [plain_loop].
  rewrite (plain_step_rotation self u a dt i Hu).
  rewrite <- IH, map_app; reflexivity.
Qed.

(** ** The chain of a single amplitude *)

Lemma plain_loop_app {F : Type} {NF : Num F} (self : NCGL F) (dt : F)
    (steps : list Z) :
  forall a states,
    plain_loop self dt steps a states
    = states ++ plain_loop self dt steps a [].
Proof.
  induction steps as [| i rest IH]; intros a states; cbn [plain_loop].
  - rewrite app_nil_r; reflexivity.
  - rewrite (IH _ (states ++ [a])), (IH _ ([] ++ [a])), app_assoc.
    reflexivity.
Qed.

Lemma plain_loop_length {F : Type} {NF : Num F} (self : NCGL F) (dt : F)
    (steps : list Z) :
  forall a states,
    length (plain_loop self dt steps a states)
    = (length states + length steps)%nat.
Proof.
  induction steps as [| i rest IH]; intros a states; cbn [plain_loop length].
  - lia.
  - rewrite IH, length_app; cbn [length]; lia.
Qed.

(** X1: [getChainedSingleReaction] always returns; it returns [nit]
    amplitudes, the first of which is the starting amplitude (the argument
    [a0] as it is when one is given), and it has drawn one random sample,
    whether or not [a0] was given. *)
Theorem getChainedSingleReaction_returns :
  forall (F : Type) (NF : Num F) (ext : Externals F) (self : NCGL F)
         (a0_arg : option (complex F)) (dt : F) (nit : nat)
         (log : list event),
    exists states,
      getChainedSingleReaction ext self a0_arg dt nit log
      = (Ok states, log ++ [EvRand 1])
      /\ length states = nit
      /\ hd_error states
         = match nit with
           | O => None
           | S _ => Some (start_amplitude ext self a0_arg log)
           end.
Proof.
  intros F NF ext self a0_arg dt nit log.
  unfold getChainedSingleReaction, bindM, rand_scalar, retM.
  eexists; split; [reflexivity | split].
  - rewrite plain_loop_length, zrange_length; reflexivity.
  - fold (start_amplitude ext self a0_arg log).
    destruct nit as [| n]; [reflexivity |].
    cbn [zrange plain_loop app]; rewrite plain_loop_app; reflexivity.
Qed.

(** X2: the chain is equivariant under a change of phase: starting from
    [u * a0] with [|u| = 1] gives the amplitudes of the chain started from
    [a0], each multiplied by [u]. *)
Theorem getChainedSingleReaction_phase :
  forall (ext : Externals R) (self : NCGL R) (u a : complex R) (dt : R)
         (nit : nat) (log : list event),
    (re u * re u + im u * im u = 1)%R ->
    exists states,
      fst (getChainedSingleReaction ext self (Some a) dt nit log) = Ok states
      /\ fst (getChainedSingleReaction ext self (Some (Cmul u a)) dt nit log)
         = Ok (map (Cmul u) states).
Proof.
  intros ext self u a dt nit log Hu.
  unfold getChainedSingleReaction, bindM, rand_scalar, retM; cbn [fst].
  eexists; split; [reflexivity |].
  rewrite <- (plain_loop_rotation self u dt (zrange 0 nit) Hu a []).
  reflexivity.
Qed.

(** The quarter turn [u = i]. *)
Lemma getChainedSingleReaction_phase_witness :
  exists states,
    fst (getChainedSingleReaction ext_R scenario (Some (mkC 1%R 0%R))
           (1 / 10)%R 3 []) = Ok states
    /\ fst (getChainedSingleReaction ext_R scenario
              (Some (Cmul (mkC 0%R 1%R) (mkC 1%R 0%R))) (1 / 10)%R 3 [])
       = Ok (map (Cmul (mkC 0%R 1%R)) states).
Proof.
  apply (getChainedSingleReaction_phase ext_R scenario (mkC 0%R 1%R)
           (mkC 1%R 0%R) (1 / 10)%R 3 []).
  cbn; lra.
Defined.

(** X15: the reaction term pushes the magnitude towards one: the inner
    product of [a] with [reaction(a, t)] is [|a|^2 (1 - |a|^2)], whatever
    [c2], which only turns the phase. *)
Theorem reaction_radial_part :
  forall (self : NCGL R) (a : complex R) (t : R),
    let m := (re a * re a + im a * im a)%R in
    (re a * re (reaction_scalar self a t)
     + im a * im (reaction_scalar self a t) = m * (1 - m))%R
    /\ (re a * im (reaction_scalar self a t)
        - im a * re (reaction_scalar self a t) = - c2 self * m * m)%R.
Proof.
  intros self a t m; rewrite reaction_scalar_R; cbn [re im]; unfold m.
  split; ring.
Qed.

(** ** The noisy chain against the plain one *)

(** With the noise delivered, the noisy chain is its loop run on the
    differenced trajectory from the starting amplitude. *)
Lemma noisy_chain_unfold (ext : Externals R) (self : NCGL R)
    (a0_arg : option (complex R)) (beta dt : R) (nit : nat)
    (log : list event) :
  (forall k, exists l,
        cNoise1 ext k beta (Z.of_nat nit + 2) 1%R = Ok l
        /\ length l = (nit + 2)%nat) ->
  exists eta log',
    length eta = (nit + 2)%nat
    /\ getNoisyChainedSingleReaction ext self a0_arg beta dt nit log
       = (noisy_loop self eta dt (zrange 0 nit)
            (start_amplitude ext self a0_arg log) [], log').
Proof.
  intros Hgen.
  unfold getNoisyChainedSingleReaction, bindM, rand_scalar, request_noise1,
    liftM, retM.
  destruct (Hgen (length (log ++ [EvRand 1]))) as (er & Her & Hler).
  cbn [ofZ Num_R]; rewrite Her.
  destruct (Hgen (length ((log ++ [EvRand 1])
                            ++ [EvNoise [(Z.of_nat nit + 2)%Z]])))
    as (ei & Hei & Hlei).
  rewrite Hei.
  set (eta0 := zipWith _ er ei).
  assert (Hl0 : length eta0 = (nit + 2)%nat).
  { unfold eta0; rewrite zipWith_length, Hler, Hlei; lia. }
  destruct (np_gradient_ok (F:=R) eta0) as (g & Hg & Hlg); [lia |].
  rewrite Hg; exists g; eexists; split; [lia | reflexivity].
Qed.

Lemma zero_noise_additive (x n : complex R) :
  (x + RtoC 0%R * n)%C = x.
Proof.
  rewrite Cmul_real_l; unfold Cadd; apply complex_eq; cbn; ring.
Qed.

Lemma zero_noise_multiplicative (x y n : complex R) :
  (x + RtoC 0%R * y * n)%C = x.
Proof.
  rewrite Cmul_real_l; unfold Cadd, Cmul; apply complex_eq; cbn; ring.
Qed.

Lemma lookups_ok (eta : list (complex R)) (i : Z) :
  (0 <= i)%Z -> (i + 1 < Z.of_nat (length eta))%Z ->
  exists n1 n2 n4,
    interpolate1D eta (IZR i) = Ok n1
    /\ interpolate1D eta (IZR i + 1 / 2)%R = Ok n2
    /\ interpolate1D eta (IZR (i + 1)) = Ok n4.
Proof.
  intros Hlo Hhi.
  assert (Hlook : forall o, In o [IZR i; (IZR i + 1 / 2)%R; IZR (i + 1)] ->
                   exists z, interpolate1D eta o = Ok z).
  { intros o Ho; destruct (offset_indices i o Ho) as [Hf Hc].
    apply interpolate1D_ok; lia. }
  destruct (Hlook (IZR i)) as [n1 Hn1]; [cbn; auto |].
  destruct (Hlook (IZR i + 1 / 2)%R) as [n2 Hn2]; [cbn; auto |].
  destruct (Hlook (IZR (i + 1))) as [n4 Hn4]; [cbn; auto |].
  exists n1, n2, n4; auto.
Qed.

(** Without noise strength a step of the noisy chain is a step of the plain
    one, for either noise type. *)
Lemma noisy_step_zero_sigma (self : NCGL R) (eta : list (complex R))
    (dt : R) (i : Z) (a : complex R) :
  sigma_r self = 0%R ->
  (0 <= i)%Z -> (i + 1 < Z.of_nat (length eta))%Z ->
  noisy_step self eta dt i a = Ok (plain_step self dt i a).
Proof.
  intros Hs Hlo Hhi.
  destruct (lookups_ok eta i Hlo Hhi) as (n1 & n2 & n4 & Hn1 & Hn2 & Hn4).
  unfold noisy_step, plain_step; rewrite stage_offsets_R, Hs.
  destruct (String.eqb (noiseType self) "multiplicative");
    rewrite Hn1; cbn [bindE]; rewrite Hn2; cbn [bindE]; rewrite Hn4;
    cbn [bindE]; cbv zeta;
    rewrite ?zero_noise_multiplicative, ?zero_noise_additive; reflexivity.
Qed.

Lemma noisy_loop_zero_sigma (self : NCGL R) (eta : list (complex R))
    (dt : R) (n : nat) :
  sigma_r self = 0%R ->
  forall (i : Z) (a : complex R) (states : list (complex R)),
    (0 <= i)%Z -> (i + Z.of_nat n + 1 <= Z.of_nat (length eta))%Z ->
    noisy_loop self eta dt (zrange i n) a states
    = Ok (plain_loop self dt (zrange i n) a states).
Proof.
  intros Hs; induction n as [| n IH]; intros i a states Hlo Hhi;
    [reflexivity |].
  cbn [zrange noisy_loop plain_loop].
  rewrite noisy_step_zero_sigma by (try assumption; lia).
  cbn [bindE]; apply IH; lia.
Qed.

(** X4: with [sigma_r = 0] the noisy chain returns the amplitudes of the
    plain chain, for every noise type and whatever noise is generated. *)
Theorem noisy_chain_without_strength :
  forall (ext : Externals R) (self : NCGL R) (a0_arg : option (complex R))
         (beta dt : R) (nit : nat) (log : list event),
    sigma_r self = 0%R ->
    (forall k, exists l,
          cNoise1 ext k beta (Z.of_nat nit + 2) 1%R = Ok l
          /\ length l = (nit + 2)%nat) ->
    fst (getNoisyChainedSingleReaction ext self a0_arg beta dt nit log)
    = fst (getChainedSingleReaction ext self a0_arg dt nit log).
Proof.
  intros ext self a0_arg beta dt nit log Hs Hgen.
  destruct (noisy_chain_unfold ext self a0_arg beta dt nit log Hgen)
    as (eta & log' & Hlen & ->).
  cbn [fst]; rewrite noisy_loop_zero_sigma by (try assumption; lia).
  reflexivity.
Qed.

Lemma noisy_chain_without_strength_witness :
  fst (getNoisyChainedSingleReaction ext_R scenario None 0%R (1 / 10)%R 3 [])
  = fst (getChainedSingleReaction ext_R scenario None (1 / 10)%R 3 []).
Proof.
  apply (noisy_chain_without_strength ext_R scenario None 0%R (1 / 10)%R 3 []).
  - reflexivity.
  - intros k; eexists; split; reflexivity.
Defined.

(** ** The zero amplitude *)

Lemma zero_half_step (dt : R) :
  (Czero + RtoC dt * Czero / RtoC (ofZ 2))%C = Czero.
Proof.
  rewrite half_step_R; unfold Czero, zero; apply complex_eq; cbn; field.
Qed.

Lemma zero_full_step (dt : R) : (Czero + RtoC dt * Czero)%C = Czero.
Proof.
  rewrite full_step_R; unfold Czero, zero; apply complex_eq; cbn; ring.
Qed.

Lemma zero_combine_step (dt : R) :
  (Czero + RtoC dt * (Czero + RtoC (ofZ 2) * Czero + RtoC (ofZ 2) * Czero
                      + Czero) / RtoC (ofZ 6))%C = Czero.
Proof.
  rewrite combine_step_R; unfold Czero, zero; apply complex_eq; cbn; field.
Qed.

Lemma plain_step_zero (self : NCGL R) (dt : R) (i : Z) :
  plain_step self dt i Czero = Czero.
Proof.
  unfold plain_step; cbv zeta.
  rewrite !reaction_scalar_zero, ?(zero_half_step dt), ?reaction_scalar_zero,
    ?(zero_half_step dt), ?reaction_scalar_zero, ?(zero_full_step dt),
    ?reaction_scalar_zero.
  apply zero_combine_step.
Qed.

Lemma plain_loop_zero (self : NCGL R) (dt : R) (steps : list Z) :
  forall k, plain_loop self dt steps Czero (repeat Czero k)
            = repeat Czero (k + length steps).
Proof.
  induction steps as [| i rest IH]; intros k; cbn [plain_loop length].
  - rewrite Nat.add_0_r; reflexivity.
  - rewrite plain_step_zero.
    replace (repeat Czero k ++ [Czero]) with (repeat (@Czero R _) (S k)).
    + rewrite IH; f_equal; lia.
    + rewrite <- repeat_cons; reflexivity.
Qed.

Lemma zero_product_noise (s n : complex R) :
  (Czero + s * Czero * n)%C = Czero.
Proof.
  unfold Cadd, Cmul, Czero, zero; apply complex_eq; cbn; ring.
Qed.

Lemma noisy_step_zero (self : NCGL R) (eta : list (complex R)) (dt : R)
    (i : Z) :
  noiseType self = "multiplicative"%string ->
  (0 <= i)%Z -> (i + 1 < Z.of_nat (length eta))%Z ->
  noisy_step self eta dt i Czero = Ok Czero.
Proof.
  intros Hty Hlo Hhi.
  destruct (lookups_ok eta i Hlo Hhi) as (n1 & n2 & n4 & Hn1 & Hn2 & Hn4).
  unfold noisy_step; rewrite stage_offsets_R, Hty, String.eqb_refl.
  rewrite Hn1; cbn [bindE]; rewrite Hn2; cbn [bindE]; rewrite Hn4;
    cbn [bindE]; cbv zeta.
  rewrite !reaction_scalar_zero, ?zero_product_noise, ?(zero_half_step dt),
    ?reaction_scalar_zero, ?zero_product_noise, ?(zero_half_step dt),
    ?reaction_scalar_zero, ?zero_product_noise, ?(zero_full_step dt),
    ?reaction_scalar_zero, ?zero_product_noise.
  rewrite zero_combine_step; reflexivity.
Qed.

Lemma noisy_loop_zero (self : NCGL R) (eta : list (complex R)) (dt : R)
    (n : nat) :
  noiseType self = "multiplicative"%string ->
  forall (i : Z) (k : nat),
    (0 <= i)%Z -> (i + Z.of_nat n + 1 <= Z.of_nat (length eta))%Z ->
    noisy_loop self eta dt (zrange i n) Czero (repeat Czero k)
    = Ok (repeat Czero (k + n)).
Proof.
  intros Hty; induction n as [| n IH]; intros i k Hlo Hhi.
  - cbn [zrange noisy_loop]; rewrite Nat.add_0_r; reflexivity.
  - cbn [zrange noisy_loop].
    rewrite noisy_step_zero by (try assumption; lia); cbn [bindE].
    replace (repeat Czero k ++ [Czero]) with (repeat (@Czero R _) (S k)).
    + rewrite IH by lia; do 2 f_equal; lia.
    + rewrite <- repeat_cons; reflexivity.
Qed.

(** X3: the zero amplitude is absorbing.  The plain chain started at zero
    stays at zero, and so does the noisy chain when the noise is
    multiplicative, whatever the noise and its strength. *)
Theorem zero_amplitude_is_absorbing :
  forall (ext : Externals R) (self : NCGL R) (beta dt : R) (nit : nat)
         (log : list event),
    fst (getChainedSingleReaction ext self (Some Czero) dt nit log)
    = Ok (repeat Czero nit)
    /\ (noiseType self = "multiplicative"%string ->
        (forall k, exists l,
              cNoise1 ext k beta (Z.of_nat nit + 2) 1%R = Ok l
              /\ length l = (nit + 2)%nat) ->
        fst (getNoisyChainedSingleReaction ext self (Some Czero) beta dt nit
               log)
        = Ok (repeat Czero nit)).
Proof.
  intros ext self beta dt nit log; split.
  - unfold getChainedSingleReaction, bindM, rand_scalar, retM; cbn [fst].
    pose proof (plain_loop_zero self dt (zrange 0 nit) 0) as Hz.
    cbn [repeat Nat.add] in Hz; rewrite Hz, zrange_length; reflexivity.
  - intros Hty Hgen.
    destruct (noisy_chain_unfold ext self (Some Czero) beta dt nit log Hgen)
      as (eta & log' & Hlen & ->).
    cbn [fst start_amplitude].
    pose proof (noisy_loop_zero self eta dt nit Hty 0%Z 0%nat) as Hz.
    cbn [repeat Nat.add] in Hz; rewrite Hz by lia; reflexivity.
Qed.

Lemma zero_amplitude_is_absorbing_witness :
  fst (getChainedSingleReaction ext_R spacing_two (Some Czero) (1 / 10)%R 3 [])
  = Ok (repeat Czero 3)
  /\ fst (getNoisyChainedSingleReaction ext_R
            (mkNCGL 1%R 1%R (1 / 100)%R 1%R "r" 8 2 5%R "multiplicative"
                    1%R [])
            (Some Czero) 0%R (1 / 10)%R 3 [])
     = Ok (repeat Czero 3).
Proof.
  split.
  - apply (proj1 (zero_amplitude_is_absorbing ext_R spacing_two 0%R
                    (1 / 10)%R 3 [])).
  - apply (proj2 (zero_amplitude_is_absorbing ext_R
                    (mkNCGL 1%R 1%R (1 / 100)%R 1%R "r" 8 2 5%R
                            "multiplicative" 1%R [])
                    0%R (1 / 10)%R 3 [])).
    + reflexivity.
    + intros k; eexists; split; reflexivity.
Defined.

(** ** The lookups of the noisy chain *)

(** X5: at the three offsets of a step the lookup in the noise trajectory
    is a sample or the mean of two samples: [eta[i]] at [i], [eta[i+1]] at
    [i + 1], and [(eta[i] + eta[i+1]) / 2] at [i + 0.5]. *)
Theorem interpolate1D_at_stage_offsets :
  forall (eta : list (complex R)) (k : nat) (a b : complex R),
    nth_error eta k = Some a -> nth_error eta (k + 1) = Some b ->
    let '(o1, o2, o3) := stage_offsets (F:=R) (Z.of_nat k) in
    interpolate1D eta o1 = Ok a
    /\ interpolate1D eta o2
       = Ok (mkC ((re a + re b) / 2)%R ((im a + im b) / 2)%R)
    /\ interpolate1D eta o3 = Ok b.
Proof.
  intros eta k a b Ha Hb; rewrite stage_offsets_R.
  assert (Hb' : nth_error eta (Z.to_nat (Z.of_nat k + 1)) = Some b).
  { replace (Z.to_nat (Z.of_nat k + 1)) with (k + 1)%nat by lia; exact Hb. }
  split; [| split].
  - unfold interpolate1D; cbn [floorZ ceilZ Num_R bindE].
    rewrite R_floor_IZR, R_ceil_IZR, Z.eqb_refl.
    apply py_index_nat; exact Ha.
  - unfold interpolate1D; cbn [floorZ ceilZ Num_R bindE].
    rewrite floor_half, ceil_half.
    destruct (Z.eqb_spec (Z.of_nat k) (Z.of_nat k + 1)) as [Heq | _]; [lia |].
    rewrite (py_index_nat _ _ _ Ha).
    replace (Z.of_nat k + 1)%Z with (Z.of_nat (k + 1)) by lia.
    rewrite (py_index_nat _ _ _ Hb); cbn [bindE].
    replace (Z.of_nat k - Z.of_nat (k + 1))%Z with (-1)%Z by lia.
    rewrite !Cdiv_real, !Cmul_real_r; unfold Cadd.
    cbn [re im ofZ add sub fabs Num_R Z.abs].
    replace (IZR (Z.of_nat k) + 1 / 2 - IZR (Z.of_nat k))%R with (1 / 2)%R
      by lra.
    replace (IZR (Z.of_nat k) + 1 / 2 - IZR (Z.of_nat (k + 1)))%R
      with (- (1 / 2))%R by (rewrite Nat2Z.inj_add, plus_IZR; cbn; lra).
    rewrite Rabs_Ropp, (Rabs_pos_eq (1 / 2)) by lra.
    f_equal; apply complex_eq; cbn [re im]; lra.
  - unfold interpolate1D; cbn [floorZ ceilZ Num_R bindE].
    rewrite R_floor_IZR, R_ceil_IZR, Z.eqb_refl.
    unfold py_index.
    destruct (Z.ltb_spec (Z.of_nat k + 1) 0); [lia |].
    assert (Hlen : (k + 1 < length eta)%nat)
      by (apply nth_error_Some; congruence).
    destruct (Z.leb_spec 0 (Z.of_nat k + 1)); [| lia].
    destruct (Z.ltb_spec (Z.of_nat k + 1) (Z.of_nat (length eta))); [| lia].
    cbn [andb]; rewrite Hb'; reflexivity.
Qed.

Lemma interpolate1D_at_stage_offsets_witness :
  interpolate1D [mkC 1%R 2%R; mkC 3%R 6%R; mkC 0%R 0%R] (IZR (Z.of_nat 0))
  = Ok (mkC 1%R 2%R)
  /\ interpolate1D [mkC 1%R 2%R; mkC 3%R 6%R; mkC 0%R 0%R]
       (IZR (Z.of_nat 0) + 1 / 2)%R
     = Ok (mkC ((1 + 3) / 2)%R ((2 + 6) / 2)%R)
  /\ interpolate1D [mkC 1%R 2%R; mkC 3%R 6%R; mkC 0%R 0%R]
       (IZR (Z.of_nat 0 + 1))
     = Ok (mkC 3%R 6%R).
Proof.
  apply (interpolate1D_at_stage_offsets
           [mkC 1%R 2%R; mkC 3%R 6%R; mkC 0%R 0%R] 0
           (mkC 1%R 2%R) (mkC 3%R 6%R)); reflexivity.
Defined.

(** ** What a returned noisy chain has done *)

Lemma noisy_loop_returned {F : Type} {NF : Num F} (self : NCGL F)
    (eta : list (complex F)) (dt : F) (steps : list Z) :
  forall a states out,
    noisy_loop self eta dt steps a states = Ok out ->
    exists tail,
      out = states ++ tail /\ length tail = length steps
      /\ hd_error tail = match steps with [] => None | _ :: _ => Some a end.
Proof.
  induction steps as [| i rest IH]; intros a states out Hout.
  - cbn [noisy_loop] in Hout; injection Hout as <-.
    exists []; rewrite app_nil_r; auto.
  - cbn [noisy_loop] in Hout.
    destruct (noisy_step self eta dt i a) as [a' | e]; [| discriminate].
    cbn [bindE] in Hout.
    destruct (IH a' (states ++ [a]) out Hout) as (tail & -> & Hlen & _).
    exists (a :: tail); rewrite <- app_assoc; cbn [app length hd_error].
    auto.
Qed.

(** X6: in every arithmetic, a call of [getNoisyChainedSingleReaction] that
    returns has returned [nit] amplitudes, the first of which is the
    starting amplitude, after one random draw and two requests of
    [nit + 2] noise samples, in this order. *)
Theorem noisy_chain_returned :
  forall (F : Type) (NF : Num F) (ext : Externals F) (self : NCGL F)
         (a0_arg : option (complex F)) (beta dt : F) (nit : nat)
         (log log' : list event) (states : list (complex F)),
    getNoisyChainedSingleReaction ext self a0_arg beta dt nit log
    = (Ok states, log') ->
    length states = nit
    /\ hd_error states
       = match nit with
         | O => None
         | S _ => Some (start_amplitude ext self a0_arg log)
         end
    /\ log' = log ++ [EvRand 1; EvNoise [Z.of_nat nit + 2];
                      EvNoise [Z.of_nat nit + 2]]%Z.
Proof.
  intros F NF ext self a0_arg beta dt nit log log' states.
  unfold getNoisyChainedSingleReaction, bindM, rand_scalar, request_noise1,
    liftM, retM.
  fold (start_amplitude ext self a0_arg log).
  destruct (cNoise1 ext _ beta _ _) as [er | e]; [| discriminate].
  destruct (cNoise1 ext _ beta _ _) as [ei | e]; [| discriminate].
  destruct (np_gradient _) as [eta | e]; [| discriminate].
  intros Hrun; injection Hrun as Hloop <-.
  destruct (noisy_loop_returned self eta dt _ _ _ _ Hloop)
    as (tail & -> & Hlen & Hhd).
  rewrite zrange_length in Hlen; cbn [app].
  split; [exact Hlen | split].
  - rewrite Hhd; destruct nit; reflexivity.
  - rewrite <- !app_assoc; reflexivity.
Qed.

Lemma noisy_chain_returned_witness :
  exists states log',
    getNoisyChainedSingleReaction ext_float one_step_self None 0%float
      (ratio 1 10) 3 [] = (Ok states, log')
    /\ length states = 3%nat
    /\ hd_error states = Some (start_amplitude ext_float one_step_self None [])
    /\ log' = [] ++ [EvRand 1; EvNoise [Z.of_nat 3 + 2];
                     EvNoise [Z.of_nat 3 + 2]]%Z.
Proof.
  destruct (getNoisyChainedSingleReaction ext_float one_step_self None
              0%float (ratio 1 10) 3 []) as [[states | e] log'] eqn:Hrun.
  - exists states, log'; split; [reflexivity |].
    exact (noisy_chain_returned float Num_float ext_float one_step_self None
             0%float (ratio 1 10) 3 [] log' states Hrun).
  - vm_compute in Hrun; discriminate.
Defined.

(** ** [interpolateNoise] outside and inside the buffer *)

Lemma py_index_beyond {A : Type} (l : list A) (i : Z) :
  (Z.of_nat (length l) <= i)%Z -> py_index l i = Raise IndexError.
Proof.
  intros Hi; unfold py_index.
  destruct (Z.ltb_spec i 0); [lia |].
  destruct (Z.ltb_spec i (Z.of_nat (length l))); [lia |].
  rewrite andb_false_r; reflexivity.
Qed.

Lemma py_index_last {A : Type} (l : list A) (a : A) :
  nth_error l (length l - 1) = Some a -> py_index l (-1) = Ok a.
Proof.
  intros Hnth.
  assert (Hlen : (length l - 1 < length l)%nat)
    by (apply nth_error_Some; congruence).
  unfold py_index; cbn [Z.ltb Z.compare].
  destruct (Z.leb_spec 0 (-1 + Z.of_nat (length l))); [| lia].
  destruct (Z.ltb_spec (-1 + Z.of_nat (length l)) (Z.of_nat (length l)));
    [| lia].
  cbn [andb].
  replace (Z.to_nat (-1 + Z.of_nat (length l))) with (length l - 1)%nat
    by lia.
  rewrite Hnth; reflexivity.
Qed.

(** X7: a normalized time beyond 1 is refused: with at least two frames,
    [interpolateNoise] raises [IndexError] for every [tau > 1]. *)
Theorem interpolateNoise_beyond_end :
  forall (S : Type) (ES : Elem R S) (nr1 nr2 : list S) (tau : R),
    (2 <= length nr1)%nat -> (1 < tau)%R ->
    interpolateNoise nr1 nr2 tau = Raise IndexError.
Proof.
  intros S ES nr1 nr2 tau Hn Htau.
  unfold interpolateNoise.
  cbn [ofZ mul floorZ ceilZ Num_R bindE].
  set (n := length nr1) in *.
  set (x := (IZR (Z.of_nat n - 1) * tau)%R).
  assert (Hpos : (0 < IZR (Z.of_nat n - 1))%R) by (apply IZR_lt; lia).
  assert (Hx : (IZR (Z.of_nat n - 1) < x)%R) by (unfold x; nra).
  assert (Hfl : (Z.of_nat n - 1 <= R_floor x)%Z).
  { pose proof (R_floor_bounds x) as Hb.
    assert (Hlt : (IZR (Z.of_nat n - 1) < IZR (R_floor x + 1))%R)
      by (rewrite plus_IZR; lra).
    apply lt_IZR in Hlt; lia. }
  assert (Hce : (Z.of_nat n <= R_ceil x)%Z).
  { pose proof (R_ceil_bounds x) as Hb.
    assert (Hlt : (IZR (Z.of_nat n - 1) < IZR (R_ceil x))%R) by lra.
    apply lt_IZR in Hlt; lia. }
  destruct (Z_lt_le_dec (R_floor x) (Z.of_nat n)) as [Hin | Hout].
  - destruct (py_index_ok (np_linspace01 (F:=R) n) (R_floor x)) as (t1 & -> & _);
      [rewrite np_linspace01_length; lia |].
    cbn [bindE].
    rewrite (py_index_beyond (np_linspace01 n))
      by (rewrite np_linspace01_length; exact Hce).
    reflexivity.
  - rewrite (py_index_beyond (np_linspace01 n))
      by (rewrite np_linspace01_length; exact Hout).
    reflexivity.
Qed.

Lemma interpolateNoise_beyond_end_witness :
  interpolateNoise (F:=R) [[[0%R]]; [[2%R]]] [[[4%R]]; [[8%R]]] (3 / 2)%R
  = Raise IndexError.
Proof.
  apply (interpolateNoise_beyond_end (grid R) _
           [[[0%R]]; [[2%R]]] [[[4%R]]; [[8%R]]] (3 / 2)%R).
  - cbn [length]; lia.
  - lra.
Defined.

(** X8: a slightly negative normalized time is not refused: the index
    [-1] wraps to the last frame, and the result is the last frame weighted
    by [1 - tau] plus the first frame weighted by [-tau]. *)
Theorem interpolateNoise_negative_time_wraps :
  forall (nr1 nr2 : list (grid R)) (tau : R)
         (r_last r_first d_last d_first : grid R),
    let n := length nr1 in
    (2 <= n)%nat -> length nr2 = n ->
    (- (1 / INR (n - 1)) < tau < 0)%R ->
    nth_error nr1 (n - 1) = Some r_last -> nth_error nr1 0 = Some r_first ->
    nth_error nr2 (n - 1) = Some d_last -> nth_error nr2 0 = Some d_first ->
    interpolateNoise nr1 nr2 tau
    = Ok (blend (1 - tau) (- tau) r_last r_first,
          blend (1 - tau) (- tau) d_last d_first).
Proof.
  intros nr1 nr2 tau r_last r_first d_last d_first n Hn Hlen Htau
         Hrl Hrf Hdl Hdf.
  assert (Hpos : (0 < INR (n - 1))%R) by (apply lt_0_INR; lia).
  unfold interpolateNoise; fold n.
  cbn [ofZ mul floorZ ceilZ Num_R bindE].
  set (x := (IZR (Z.of_nat n - 1) * tau)%R).
  assert (Hx : (-1 < x < 0)%R).
  { assert (Hx' : x = (INR (n - 1) * tau)%R).
    { unfold x; rewrite INR_IZR_INZ; do 2 f_equal; lia. }
    destruct Htau as [Hlo Hhi]; rewrite Hx'; split; [| nra].
    apply (Rmult_lt_compat_l (INR (n - 1))) in Hlo; [| exact Hpos].
    replace (INR (n - 1) * - (1 / INR (n - 1)))%R with (-1)%R in Hlo
      by (field; lra).
    exact Hlo. }
  rewrite (R_floor_unique x (-1)) by (cbn; lra).
  rewrite (R_ceil_unique x 0) by (cbn; lra).
  rewrite (py_index_last (np_linspace01 n) (INR (n - 1) / INR (n - 1))%R)
    by (rewrite np_linspace01_length; apply np_linspace01_nth; lia).
  assert (Ht0 : py_index (np_linspace01 (F:=R) n) 0
                = Ok (INR 0 / INR (n - 1))%R).
  { apply (py_index_nat (np_linspace01 n) 0), np_linspace01_nth; lia. }
  rewrite Ht0.
  rewrite (py_index_last nr1 r_last) by exact Hrl.
  rewrite (py_index_nat nr1 0 r_first Hrf : py_index nr1 0 = Ok r_first).
  rewrite (py_index_last nr2 d_last) by (rewrite Hlen; exact Hdl).
  rewrite (py_index_nat nr2 0 d_first Hdf : py_index nr2 0 = Ok d_first).
  cbn [bindE INR]; rewrite eps_value.
  replace (INR (n - 1) / INR (n - 1))%R with 1%R by (field; lra).
  replace (0 / INR (n - 1))%R with 0%R by (field; lra).
  cbn [fabs sub ltb Num_R].
  rewrite R_ltb_false
    by (replace (1 - 0)%R with 1%R by ring; rewrite Rabs_R1; lra).
  assert (Habs : Rabs (0 - 1) = 1%R) by (rewrite Rabs_left; lra).
  assert (Hd : Rabs (0 - 1) <> 0%R) by (rewrite Habs; lra).
  rewrite !(blend_frames _ _ _ _ _ Hd), Habs.
  rewrite (Rabs_pos_eq (1 - tau)) by lra.
  rewrite (Rabs_pos_eq (0 - tau)) by lra.
  replace ((1 - tau) / 1)%R with (1 - tau)%R by field.
  replace ((0 - tau) / 1)%R with (- tau)%R by field.
  reflexivity.
Qed.

Lemma interpolateNoise_negative_time_wraps_witness :
  interpolateNoise (F:=R) [[[0%R]]; [[2%R]]] [[[4%R]]; [[8%R]]] (- (1 / 2))%R
  = Ok (blend (1 - - (1 / 2)) (- - (1 / 2)) [[2%R]] [[0%R]],
        blend (1 - - (1 / 2)) (- - (1 / 2)) [[8%R]] [[4%R]]).
Proof.
  apply (interpolateNoise_negative_time_wraps
           [[[0%R]]; [[2%R]]] [[[4%R]]; [[8%R]]] (- (1 / 2))%R
           [[2%R]] [[0%R]] [[8%R]] [[4%R]]).
  - cbn [length]; lia.
  - reflexivity.
  - cbn; lra.
  - reflexivity.
  - reflexivity.
  - reflexivity.
  - reflexivity.
Defined.

(** X9: strictly between two frames the result is a convex combination of
    the two, in which frame [k] is weighted by the fractional part
    [s = (n-1) tau - k] of the frame index and frame [k+1] by [1 - s]:
    the weights of the linear interpolation, exchanged. *)
Theorem interpolateNoise_exchanged_weights :
  forall (nr1 nr2 : list (grid R)) (k : nat) (tau : R)
         (r1 r2 d1 d2 : grid R),
    let n := length nr1 in
    let s := (INR (n - 1) * tau - INR k)%R in
    (Z.of_nat n - 1 <= 10 ^ 15)%Z ->
    (INR k / INR (n - 1) < tau < INR (k + 1) / INR (n - 1))%R ->
    nth_error nr1 k = Some r1 -> nth_error nr1 (k + 1) = Some r2 ->
    nth_error nr2 k = Some d1 -> nth_error nr2 (k + 1) = Some d2 ->
    (0 < s < 1)%R
    /\ interpolateNoise nr1 nr2 tau
       = Ok (blend s (1 - s) r1 r2, blend s (1 - s) d1 d2).
Proof.
  intros nr1 nr2 k tau r1 r2 d1 d2 n s Hcap Htau Hr1 Hr2 Hd1 Hd2.
  assert (Hk : (k + 1 < n)%nat) by (apply nth_error_Some; congruence).
  assert (Hpos : (0 < INR (n - 1))%R) by (apply lt_0_INR; lia).
  destruct (interpolateNoise_between nr1 nr2 k tau r1 r2 d1 d2
              Hcap Htau Hr1 Hr2 Hd1 Hd2) as [Hd ->].
  rewrite !(blend_frames _ _ _ _ _ Hd).
  fold n.
  set (t1 := (INR k / INR (n - 1))%R) in *.
  set (t2 := (INR (k + 1) / INR (n - 1))%R) in *.
  assert (Ht : (t2 - t1 = 1 / INR (n - 1))%R).
  { unfold t1, t2; rewrite plus_INR; cbn [INR]; field; lra. }
  assert (Hs1 : (Rabs (t1 - tau) / Rabs (t2 - t1) = s)%R).
  { rewrite (Rabs_left (t1 - tau)) by lra.
    rewrite (Rabs_pos_eq (t2 - t1))
      by (rewrite Ht; apply Rlt_le, Rdiv_lt_0_compat; lra).
    rewrite Ht; unfold s, t1; field; lra. }
  assert (Hs2 : (Rabs (t2 - tau) / Rabs (t2 - t1) = 1 - s)%R).
  { rewrite (Rabs_pos_eq (t2 - tau)) by lra.
    rewrite (Rabs_pos_eq (t2 - t1))
      by (rewrite Ht; apply Rlt_le, Rdiv_lt_0_compat; lra).
    rewrite Ht; unfold s, t2; rewrite plus_INR; cbn [INR]; field; lra. }
  split.
  - destruct Htau as [Hlo Hhi]; unfold s, t1, t2 in *.
    apply (Rmult_lt_compat_l (INR (n - 1))) in Hlo; [| exact Hpos].
    apply (Rmult_lt_compat_l (INR (n - 1))) in Hhi; [| exact Hpos].
    replace (INR (n - 1) * (INR k / INR (n - 1)))%R with (INR k) in Hlo
      by (field; lra).
    replace (INR (n - 1) * (INR (k + 1) / INR (n - 1)))%R
      with (INR k + 1)%R in Hhi
      by (rewrite plus_INR; cbn [INR]; field; lra).
    lra.
  - rewrite Hs1, Hs2; reflexivity.
Qed.

Lemma interpolateNoise_exchanged_weights_witness :
  (0 < INR (2 - 1) * (1 / 4) - INR 0 < 1)%R
  /\ interpolateNoise (F:=R) [[[0%R]]; [[2%R]]] [[[4%R]]; [[8%R]]] (1 / 4)%R
     = Ok (blend (INR (2 - 1) * (1 / 4) - INR 0)
                 (1 - (INR (2 - 1) * (1 / 4) - INR 0)) [[0%R]] [[2%R]],
           blend (INR (2 - 1) * (1 / 4) - INR 0)
                 (1 - (INR (2 - 1) * (1 / 4) - INR 0)) [[4%R]] [[8%R]]).
Proof.
  apply (interpolateNoise_exchanged_weights
           [[[0%R]]; [[2%R]]] [[[4%R]]; [[8%R]]] 0 (1 / 4)%R
           [[0%R]] [[2%R]] [[4%R]] [[8%R]]).
  - cbn [length]; lia.
  - cbn; lra.
  - reflexivity.
  - reflexivity.
  - reflexivity.
  - reflexivity.
Defined.

(** ** The initial condition *)

(** X10: the error behaviour of [getInitialCondition].  Every mode other
    than ['r'] takes the Gaussian branch, which raises before any draw
    ([ValueError] for a negative side, otherwise [TypeError]), and
    [solveRKF45] then raises the same error with nothing generated; the
    random mode with a negative side raises [ValueError] after its first
    draw. *)
Theorem getInitialCondition_errors :
  forall (F : Type) (NF : Num F) (ext : Externals F) (self : NCGL F)
         (log : list event),
    (ic self <> "r"%string ->
     getInitialCondition ext self log
     = (Raise (if (msize self <? 0)%Z then ValueError else TypeError), log)
     /\ forall dt ntimes stepsave dtTolerace,
         solveRKF45 ext self dt ntimes stepsave dtTolerace log
         = (Raise (if (msize self <? 0)%Z then ValueError else TypeError),
            log))
    /\ (ic self = "r"%string -> (msize self < 0)%Z ->
        getInitialCondition ext self log
        = (Raise ValueError, log ++ [EvRand (Z.to_nat (msize self ^ 2))])).
Proof.
  intros F NF ext self log; split.
  - intros Hic.
    pose proof (getInitialCondition_other_ic ext self log Hic) as Hinit.
    split; [exact Hinit |].
    intros dt ntimes stepsave tol; unfold solveRKF45, bindM.
    rewrite Hinit; reflexivity.
  - apply getInitialCondition_negative_side.
Qed.

Lemma getInitialCondition_errors_witness :
  (getInitialCondition ext_float
     (mkNCGL 1%float 1%float (ratio 1 100) 1%float "g" 8 2 1%float
             "additive" 1%float []) []
   = (Raise (if (8 <? 0)%Z then ValueError else TypeError), [])
   /\ forall dt ntimes stepsave dtTolerace,
       solveRKF45 ext_float
         (mkNCGL 1%float 1%float (ratio 1 100) 1%float "g" 8 2 1%float
                 "additive" 1%float []) dt ntimes stepsave dtTolerace []
       = (Raise (if (8 <? 0)%Z then ValueError else TypeError), []))
  /\ getInitialCondition ext_float
       (mkNCGL 1%float 1%float (ratio 1 100) 1%float "r" (-3) 2 1%float
               "additive" 1%float []) []
     = (Raise ValueError, [] ++ [EvRand (Z.to_nat ((-3) ^ 2))]).
Proof.
  split.
  - apply (proj1 (getInitialCondition_errors float Num_float ext_float
                    (mkNCGL 1%float 1%float (ratio 1 100) 1%float "g" 8 2
                            1%float "additive" 1%float []) [])).
    cbn; discriminate.
  - apply (proj2 (getInitialCondition_errors float Num_float ext_float
                    (mkNCGL 1%float 1%float (ratio 1 100) 1%float "r" (-3) 2
                            1%float "additive" 1%float []) [])).
    + reflexivity.
    + cbn; lia.
Defined.

Lemma Forall_reshape_rows {A : Type} (P : A -> Prop) (rows cols : nat) :
  forall l : list A,
    Forall P l -> Forall (Forall P) (reshape_rows l rows cols).
Proof.
  induction rows as [| r IH]; intros l Hl; cbn [reshape_rows];
    [constructor |].
  rewrite <- (firstn_skipn cols l) in Hl.
  apply Forall_app in Hl; destruct Hl as [Hfirst Hrest].
  constructor; [exact Hfirst | apply IH; exact Hrest].
Qed.

Lemma initial_cell_R (a0 x y : R) :
  (RtoC a0 * (RtoC (x - ratio 1 2)%num + Ci * RtoC (y - ratio 1 2)%num))%C
  = mkC (a0 * (x - 1 / 2))%R (a0 * (y - 1 / 2))%R.
Proof.
  rewrite Cmul_real_l, Cmul_real_r.
  unfold Cadd, Ci, RtoC, ratio, zero, one; cbn.
  apply complex_eq; cbn; field.
Qed.

(** X11: the random initial condition.  When [np.random.rand] delivers the
    samples it is asked for, each in [[0, 1)], the field has [msize] rows
    of [msize] cells, and the real and the imaginary part of every cell lie
    in [[-a0/2, a0/2)]. *)
Theorem getInitialCondition_random_cells :
  forall (ext : Externals R) (self : NCGL R) (log : list event),
    (forall k n, length (rand ext k n) = n) ->
    (forall k n x, In x (rand ext k n) -> (0 <= x < 1)%R) ->
    ic self = "r"%string -> (0 <= msize self)%Z -> (0 < a0 self)%R ->
    exists state,
      fst (getInitialCondition ext self log) = Ok state
      /\ has_shape (Z.to_nat (msize self)) (Z.to_nat (msize self)) state
      /\ Forall (Forall (fun z =>
                           (- (a0 self / 2) <= re z < a0 self / 2)%R
                           /\ (- (a0 self / 2) <= im z < a0 self / 2)%R))
                state.
Proof.
  intros ext self log Hlen Hrange Hic Hm Ha.
  unfold getInitialCondition; rewrite Hic, String.eqb_refl.
  unfold bindM, getRandom, retM.
  destruct (Z.ltb_spec (msize self) 0) as [Hneg | _]; [lia |].
  cbn [fst]; eexists; split; [reflexivity | split].
  - assert (Hcount : Z.to_nat (msize self ^ 2)
                     = (Z.to_nat (msize self) * Z.to_nat (msize self))%nat).
    { rewrite Z.pow_2_r, Z2Nat.inj_mul by lia; reflexivity. }
    apply has_shape_gzip; apply reshape_rows_shape; rewrite Hlen;
      exact Hcount.
  - unfold gzip.
    apply (Forall_zipWith (Forall (fun x => (0 <= x < 1)%R))
             (Forall (fun x => (0 <= x < 1)%R))).
    + intros r1 r2 H1 H2.
      apply (Forall_zipWith (fun x => (0 <= x < 1)%R)
               (fun x => (0 <= x < 1)%R)); try assumption.
      intros x y Hx Hy; rewrite initial_cell_R; cbn [re im]; nra.
    + apply Forall_reshape_rows, Forall_forall; intros x Hx.
      exact (Hrange _ _ x Hx).
    + apply Forall_reshape_rows, Forall_forall; intros x Hx.
      exact (Hrange _ _ x Hx).
Qed.

Lemma getInitialCondition_random_cells_witness :
  exists state,
    fst (getInitialCondition ext_R scenario []) = Ok state
    /\ has_shape (Z.to_nat 8) (Z.to_nat 8) state
    /\ Forall (Forall (fun z =>
                         (- (1 / 100 / 2) <= re z < 1 / 100 / 2)%R
                         /\ (- (1 / 100 / 2) <= im z < 1 / 100 / 2)%R))
              state.
Proof.
  apply (getInitialCondition_random_cells ext_R scenario []).
  - intros k n; apply repeat_length.
  - intros k n x Hx; apply repeat_spec in Hx; subst x; lra.
  - reflexivity.
  - cbn; lia.
  - cbn; lra.
Defined.

(** ** The save set *)

Lemma rkf_loop_same_saved {F : Type} {NF : Num F} (ext : Externals F)
    (self : NCGL F) (buf : Buffers F) (dt tol : F) (S S' : list Z)
    (times : list nat) :
  (forall time, In time times -> saved S time = saved S' time) ->
  forall l,
    rkf_loop ext self buf dt tol S times l
    = rkf_loop ext self buf dt tol S' times l.
Proof.
  induction times as [| time rest IH]; intros Hsame l; [reflexivity |].
  cbn [rkf_loop].
  assert (Hstep : rkf_step ext self buf dt tol S time l
                  = rkf_step ext self buf dt tol S' time l).
  { unfold rkf_step; rewrite (Hsame time) by (left; reflexivity).
    reflexivity. }
  rewrite Hstep.
  destruct (rkf_step ext self buf dt tol S' time l) as [l' | e];
    [| reflexivity].
  cbn [bindE]; apply IH; intros t Ht; apply Hsame; right; exact Ht.
Qed.

(** X12: only membership of the step indices [0 .. ntimes-1] in the save
    set matters: two save sets with the same members among them give the
    same run, whatever their order, their repetitions and their other
    entries (negative or beyond the last step). *)
Theorem solveRKF45_save_set_membership :
  forall (F : Type) (NF : Num F) (ext : Externals F) (self : NCGL F)
         (dt : F) (ntimes : nat) (S S' : list Z) (dtTolerace : F)
         (log : list event),
    (forall i, (i < ntimes)%nat -> saved S i = saved S' i) ->
    solveRKF45 ext self dt ntimes S dtTolerace log
    = solveRKF45 ext self dt ntimes S' dtTolerace log.
Proof.
  intros F NF ext self dt ntimes S S' tol log Hsame.
  unfold solveRKF45, bindM.
  destruct (getInitialCondition ext self log) as [[state | e] log1];
    [| reflexivity].
  destruct (liftM _ log1) as [[frames | e] log2]; [| reflexivity].
  destruct (request_noise3 ext _ _ _ log2) as [[noise | e] log3];
    [| reflexivity].
  destruct (liftM (np_gradient_frames noise) log3) as [[rate | e] log4];
    [| reflexivity].
  unfold liftM.
  rewrite (rkf_loop_same_saved ext self _ dt tol S S' (seq 0 ntimes));
    [reflexivity |].
  intros time Hin; apply in_seq in Hin; apply Hsame; lia.
Qed.

Lemma solveRKF45_save_set_membership_witness :
  solveRKF45 ext_R scenario (1 / 100)%R 10 [0; 5; 9]%Z (1 / 10000)%R []
  = solveRKF45 ext_R scenario (1 / 100)%R 10 [9; 0; 5; 5; 12; -1]%Z
      (1 / 10000)%R [].
Proof.
  apply (solveRKF45_save_set_membership R Num_R ext_R scenario (1 / 100)%R 10
           [0; 5; 9]%Z [9; 0; 5; 5; 12; -1]%Z (1 / 10000)%R []).
  intros i Hi.
  do 10 (destruct i as [| i]; [reflexivity |]).
  lia.
Defined.

(** ** What a returned run has done *)

Lemma rkf_step_returned {F : Type} {NF : Num F} (ext : Externals F)
    (self : NCGL F) (buf : Buffers F) (dt tol : F) (S : list Z) (time : nat)
    (l l' : Loop) :
  rkf_step ext self buf dt tol S time l = Ok l' ->
  l_times l' = l_times l ++ [l_t l']
  /\ l_states l' = (if saved S time then l_states l ++ [l_state l']
                    else l_states l).
Proof.
  unfold rkf_step.
  destruct (stages ext self buf (l_state l) (l_t l) dt) as [ks | e];
    [| discriminate].
  cbn [bindE].
  destruct (local_error (l_state l) ks) as [err | e]; [| discriminate].
  cbn [bindE].
  destruct (ltb tol err).
  - destruct (stages ext self buf (l_state l) (l_t l) _) as [ks' | e];
      [| discriminate].
    cbn [bindE fst snd]; intros Heq; injection Heq as <-; cbn; auto.
  - cbn [bindE fst snd]; intros Heq; injection Heq as <-; cbn; auto.
Qed.

Lemma rkf_loop_returned {F : Type} {NF : Num F} (ext : Externals F)
    (self : NCGL F) (buf : Buffers F) (dt tol : F) (S : list Z)
    (times : list nat) :
  forall l l',
    rkf_loop ext self buf dt tol S times l = Ok l' ->
    exists ts ss,
      l_times l' = l_times l ++ ts /\ length ts = length times
      /\ l_states l' = l_states l ++ ss
      /\ length ss = length (filter (saved S) times).
Proof.
  induction times as [| time rest IH]; intros l l' Hrun.
  - cbn [rkf_loop] in Hrun; injection Hrun as <-.
    exists [], []; rewrite !app_nil_r; auto.
  - cbn [rkf_loop] in Hrun.
    destruct (rkf_step ext self buf dt tol S time l) as [l1 | e] eqn:Hstep;
      [| discriminate].
    cbn [bindE] in Hrun.
    destruct (rkf_step_returned ext self buf dt tol S time l l1 Hstep)
      as [Ht Hs].
    destruct (IH l1 l' Hrun) as (ts & ss & Hts & Hlt & Hss & Hls).
    cbn [filter]; rewrite Hts, Hss, Ht, Hs.
    destruct (saved S time).
    + exists (l_t l1 :: ts), (l_state l1 :: ss).
      rewrite <- !app_assoc; cbn [app length]; auto.
    + exists (l_t l1 :: ts), ss.
      rewrite <- !app_assoc; cbn [app length]; auto.
Qed.

(** X13: in every arithmetic and with any collaborators, a call of
    [solveRKF45] that returns was configured with [ic = 'r'] and a side
    that is not negative; it has made two random draws and one noise
    request of shape [(int(noiseSpeed*ntimes), msize, msize)], in this
    order, with the exponent and the deviation of [noiseArgs] or else 2 and
    0.01, and was delivered at least two frames; it returns the initial
    condition first, one snapshot for each saved step, and one time for
    every step. *)
Theorem solveRKF45_returned :
  forall (F : Type) (NF : Num F) (ext : Externals F) (self : NCGL F)
         (dt : F) (ntimes : nat) (stepsave : list Z) (dtTolerace : F)
         (log log' : list event) (states : list (grid (complex F)))
         (times : list F),
    solveRKF45 ext self dt ntimes stepsave dtTolerace log
    = (Ok (states, times), log') ->
    ic self = "r"%string /\ (0 <= msize self)%Z
    /\ (exists frames noise,
           truncZ (noiseSpeed self * ofZ (Z.of_nat ntimes))%num = Ok frames
           /\ cNoise3 ext (length log + 2)
                (match dict_get (noiseArgs self) "beta" with
                 | Some b => b | None => ofZ 2 end)
                (frames, msize self, msize self)
                (match dict_get (noiseArgs self) "std" with
                 | Some s => s | None => ratio 1 100 end)
              = Ok noise
           /\ (2 <= length noise)%nat
           /\ log' = log ++ [EvRand (Z.to_nat (msize self ^ 2));
                             EvRand (Z.to_nat (msize self ^ 2));
                             EvNoise [frames; msize self; msize self]])
    /\ (exists state0,
           fst (getInitialCondition ext self log) = Ok state0
           /\ hd_error states = Some state0)
    /\ length times = ntimes
    /\ length states = S (length (filter (saved stepsave) (seq 0 ntimes))).
Proof.
  intros F NF ext self dt ntimes stepsave tol log log' states times.
  unfold solveRKF45, bindM.
  destruct (String.eqb_spec (ic self) "r") as [Hic | Hic].
  2:{ rewrite (getInitialCondition_other_ic ext self log Hic).
      discriminate. }
  destruct (Z_lt_le_dec (msize self) 0) as [Hneg | Hm].
  { rewrite (getInitialCondition_negative_side ext self log Hic Hneg).
    discriminate. }
  destruct (getInitialCondition_random ext self log Hic Hm) as [state0 ->].
  unfold liftM at 1.
  destruct (truncZ _) as [frames | e]; [| discriminate].
  unfold request_noise3.
  destruct (cNoise3 ext _ _ _ _) as [noise | e] eqn:Hnoise; [| discriminate].
  unfold liftM at 1.
  destruct (np_gradient_frames noise) as [rate | e] eqn:Hrate;
    [| discriminate].
  unfold liftM, retM.
  destruct (rkf_loop ext self _ dt tol stepsave (seq 0 ntimes) _)
    as [l | e] eqn:Hloop; [| discriminate].
  intros Hrun; injection Hrun as <- <- <-.
  destruct (rkf_loop_returned ext self _ dt tol stepsave _ _ _ Hloop)
    as (ts & ss & Hts & Hlt & Hss & Hls).
  cbn [l_times l_states app] in Hts, Hss.
  split; [exact Hic | split; [exact Hm |]].
  split.
  { exists frames, noise; split; [reflexivity |].
    rewrite length_app in Hnoise; cbn [length] in Hnoise.
    split; [exact Hnoise | split].
    - destruct (Nat.le_gt_cases 2 (length noise)) as [Hok | Hshort];
        [exact Hok |].
      unfold np_gradient_frames in Hrate.
      rewrite (np_gradient_short noise) in Hrate by lia; discriminate.
    - rewrite <- !app_assoc; reflexivity. }
  split; [exists state0; rewrite Hss; auto |].
  rewrite Hts, Hss, Hlt, length_seq; cbn [length]; rewrite Hls; auto.
Qed.

Lemma solveRKF45_returned_witness :
  exists states times log',
    solveRKF45 ext_R scenario (1 / 100)%R 10 [0; 5; 9]%Z (1 / 10000)%R []
    = (Ok (states, times), log')
    /\ ic scenario = "r"%string
    /\ length times = 10%nat
    /\ length states = S (length (filter (saved [0; 5; 9]%Z) (seq 0 10))).
Proof.
  destruct (solveRKF45_run ext_R scenario (1 / 100)%R 10 (1 / 10000)%R []
              ext_R_contract eq_refl)
    as (state0 & ts & ss & log' & _ & _ & _ & _ & Hrun);
    [cbn; lia | rewrite scenario_frames; lia | lra | lra |].
  exists (state0 :: snapshots [0; 5; 9]%Z 0 ss), ts, log'.
  destruct (solveRKF45_returned R Num_R ext_R scenario (1 / 100)%R 10
              [0; 5; 9]%Z (1 / 10000)%R [] log' _ _
              (Hrun [0; 5; 9]%Z))
    as (Hic & _ & _ & _ & Hlt & Hls).
  split; [apply Hrun | split; [exact Hic | split; [exact Hlt | exact Hls]]].
Defined.

(** ** A run without noise strength *)

Lemma zipWith_absorb (d e : list (complex R)) :
  length d = length e -> Forall is_zero e -> zipWith Cadd d e = d.
Proof.
  revert e; induction d as [| x d IH]; intros [| y e] Hlen He;
    cbn [length] in Hlen; try discriminate; [reflexivity |].
  cbn [zipWith]; rewrite IH by (try lia; exact (Forall_inv_tail He)).
  destruct (Forall_inv He) as [Hre Him].
  f_equal; unfold Cadd; apply complex_eq; cbn [re im add Num_R];
    rewrite ?Hre, ?Him; ring.
Qed.

Lemma gzip_absorb (r c : nat) (d e : grid (complex R)) :
  has_shape r c d -> has_shape r c e -> Forall (Forall is_zero) e ->
  gzip Cadd d e = d.
Proof.
  intros [Hld Hrd] [Hle Hre] Hz; unfold gzip.
  revert r e Hld Hle Hre Hz Hrd.
  induction d as [| x d IH]; intros r [| y e] Hld Hle Hre Hz Hrd;
    cbn [length] in *; try lia; [reflexivity |].
  cbn [zipWith].
  rewrite zipWith_absorb.
  - f_equal; apply (IH (length d)); try lia.
    + exact (Forall_inv_tail Hre).
    + exact (Forall_inv_tail Hz).
    + exact (Forall_inv_tail Hrd).
  - rewrite (Forall_inv Hrd), (Forall_inv Hre); reflexivity.
  - exact (Forall_inv Hz).
Qed.

Lemma Forall_gzip_any {A B C : Type} (T : C -> Prop) (f : A -> B -> C)
    (g : grid A) (g' : grid B) :
  (forall a b, T (f a b)) -> Forall (Forall T) (gzip f g g').
Proof.
  intros Hf; unfold gzip.
  apply (Forall_zipWith (fun _ => True) (fun _ => True));
    try (apply Forall_forall; auto).
  intros r1 r2 _ _.
  apply (Forall_zipWith (fun _ => True) (fun _ => True));
    try (apply Forall_forall; auto).
  intros; apply Hf.
Qed.

Lemma Forall_gmap_any {A B : Type} (T : B -> Prop) (f : A -> B)
    (g : grid A) :
  (forall a, T (f a)) -> Forall (Forall T) (gmap f g).
Proof.
  intros Hf; unfold gmap.
  apply Forall_map, Forall_forall; intros row _.
  apply Forall_map, Forall_forall; intros a _; apply Hf.
Qed.


Section NoiseFreeRun.
Variable ext : Externals R.
Variable self : NCGL R.
Variables buf buf' : Buffers R.
Variables m n n' : nat.
Hypothesis Hext : ext_contract ext.
Hypothesis Hm : (1 <= m)%nat.
Hypothesis Hn : (1 <= n)%nat.
Hypothesis Hn' : (1 <= n')%nat.
Hypothesis Hbuf : good_buffers m n buf.
Hypothesis Hbuf' : good_buffers m n' buf'.
Hypothesis Hmax : (0 < maxTime buf)%R.
Hypothesis Hsame : maxTime buf' = maxTime buf.
Hypothesis Hs : sigma_r self = 0%R.
Hypothesis Hty : String.eqb (noiseType self) "diffusive" = false.

(** Without noise strength the right-hand side is the drift, whatever the
    buffer holds. *)
Lemma timeDerivatives_noise_free (state : grid (complex R)) (time : R) :
  has_shape m m state -> (0 <= time <= maxTime buf)%R ->
  exists out,
    timeDerivatives ext self buf state time = Ok out
    /\ timeDerivatives ext self buf' state time = Ok out
    /\ has_shape m m out.
Proof.
  intros Hst Htime.
  assert (Hmax' : (0 < maxTime buf')%R) by (rewrite Hsame; exact Hmax).
  assert (Htau : forall b, (0 < maxTime b)%R -> (time <= maxTime b)%R ->
                           (0 <= time / maxTime b <= 1)%R).
  { intros b Hb Hle; split.
    - apply Rmult_le_pos; [lra | left; apply Rinv_0_lt_compat; exact Hb].
    - apply Rmult_le_reg_r with (r := maxTime b); [exact Hb |].
      replace (time / maxTime b * maxTime b)%R with time by (field; lra).
      lra. }
  destruct (interpolateNoise_ok m n buf (time / maxTime buf)%R Hn Hbuf)
    as (tn & Htn & H1 & H2); [apply Htau; lra |].
  destruct (interpolateNoise_ok m n' buf' (time / maxTime buf')%R Hn' Hbuf')
    as (tn' & Htn' & H1' & H2'); [apply Htau; [exact Hmax' | rewrite Hsame; lra] |].
  destruct (spectral_laplacian_ok ext Hext self m state Hm Hst)
    as (lap & Hlap & Hshape).
  set (drift := gzip Cadd
                  (gmap (fun l => (RtoC one + RtoC (c1 self) * Ci) * l)%C lap)
                  (reaction self state time)).
  assert (Hdrift : has_shape m m drift).
  { apply has_shape_gzip;
      [apply has_shape_gmap; exact Hshape
      | apply has_shape_gmap; exact Hst]. }
  exists drift.
  unfold timeDerivatives; rewrite Hlap; cbn [bindE].
  cbn [div Num_R]; rewrite Htn, Htn'; cbn [bindE]; fold drift.
  rewrite Hty.
  assert (Hmult : forall g, has_shape m m g ->
             gzip Cadd drift (gzip (multiplicative_term self) state g)
             = drift).
  { intros g Hg; apply (gzip_absorb m m); try exact Hdrift.
    - apply has_shape_gzip; assumption.
    - apply Forall_gzip_any; intros s x.
      unfold multiplicative_term; rewrite Hs, Cmul_real_l.
      unfold Cmul; split; cbn; ring. }
  assert (Hadd : forall g, has_shape m m g ->
             gzip Cadd drift (gmap (additive_term self) g) = drift).
  { intros g Hg; apply (gzip_absorb m m); try exact Hdrift.
    - apply has_shape_gmap; assumption.
    - apply Forall_gmap_any; intros x.
      unfold additive_term; rewrite Hs, Cmul_real_l; split; cbn; ring. }
  destruct (String.eqb (noiseType self) "multiplicative").
  - rewrite !Hmult by assumption; auto.
  - rewrite !Hadd by assumption; auto.
Qed.

Ltac stage_call2 :=
  match goal with
  | |- context [bindE (timeDerivatives ext self buf ?st ?tm) _] =>
      let d := fresh "d" in
      let Hd := fresh "Hd" in
      let Hd' := fresh "Hd'" in
      let Hsh := fresh "Hsh" in
      destruct (timeDerivatives_noise_free st tm) as (d & Hd & Hd' & Hsh);
      [ auto 20 with shape
      | cbn [add sub mul div ofZ Num_R]; lra
      | rewrite Hd, Hd'; cbn [bindE] ]
  end.

Lemma stages_noise_free (state : grid (complex R)) (t step : R) :
  has_shape m m state ->
  (0 <= t)%R -> (0 <= step)%R -> (t + step <= maxTime buf)%R ->
  stages ext self buf state t step = stages ext self buf' state t step.
Proof.
  intros Hst Ht Hstep Hend; unfold stages; cbv zeta.
  do 6 stage_call2.
  reflexivity.
Qed.

Lemma rkf_step_noise_free (dt tol : R) (S : list Z) (time : nat)
    (state : grid (complex R)) (t : R) (times : list R)
    (states : list (grid (complex R))) :
  (0 < dt)%R -> (0 < tol)%R ->
  has_shape m m state -> (0 <= t)%R -> (t + dt <= maxTime buf)%R ->
  rkf_step ext self buf dt tol S time (mkLoop state t times states)
  = rkf_step ext self buf' dt tol S time (mkLoop state t times states).
Proof.
  intros Hdt Htol Hst Ht Hend; unfold rkf_step.
  cbn [l_state l_t l_times l_states].
  rewrite <- (stages_noise_free state t dt Hst Ht) by lra.
  destruct (stages ext self buf state t dt) as [ks | e]; [| reflexivity].
  cbn [bindE].
  destruct (local_error state ks) as [err | e]; [| reflexivity].
  cbn [bindE ltb pow_quarter mul div ofZ Num_R].
  destruct (R_ltb tol err) eqn:Hcmp; [| reflexivity].
  apply R_ltb_spec in Hcmp.
  destruct (corrected_step_bounds dt tol err Hdt Htol Hcmp) as [Hlo Hhi].
  rewrite <- (stages_noise_free state t _ Hst Ht) by lra.
  reflexivity.
Qed.

Lemma rkf_loop_noise_free (dt tol : R) (S : list Z) (cnt : nat) :
  (0 < dt)%R -> (0 < tol)%R ->
  forall (first : nat) (state : grid (complex R)) (t : R) (times : list R)
         (states : list (grid (complex R))),
    has_shape m m state -> (0 <= t)%R ->
    (t + INR cnt * dt <= maxTime buf)%R ->
    rkf_loop ext self buf dt tol S (seq first cnt)
      (mkLoop state t times states)
    = rkf_loop ext self buf' dt tol S (seq first cnt)
        (mkLoop state t times states).
Proof.
  intros Hdt Htol; induction cnt as [| cnt IH];
    intros first state t times states Hst Ht Hend; [reflexivity |].
  rewrite S_INR in Hend; pose proof (pos_INR cnt) as Hcnt.
  cbn [seq rkf_loop].
  rewrite <- (rkf_step_noise_free dt tol S first state t times states)
    by (try assumption; nra).
  destruct (rkf_step_ok ext self buf m n Hext Hm Hn Hbuf Hmax dt tol state t
              Hdt Htol Hst Ht)
    as (state1 & t1 & Hst1 & Ht1 & Hstep); [nra |].
  rewrite Hstep; cbn [bindE].
  apply IH; [exact Hst1 | lra | nra].
Qed.
End NoiseFreeRun.

Lemma ext_R_silent_contract : ext_contract ext_R_silent.
Proof.
  destruct ext_R_contract as (Hrand & _ & Hfft).
  split; [exact Hrand | split; [| exact Hfft]].
  intros k beta f m std Hf Hm; cbn [cNoise3 ext_R_silent silent_noise3].
  destruct (Z.ltb_spec f 0); [lia |].
  destruct (Z.ltb_spec m 0); [lia |].
  cbn [orb]; eexists; split; [reflexivity | split].
  - rewrite length_map, zrange_length; reflexivity.
  - apply Forall_map, Forall_forall; intros i _; apply has_shape_const_grid.
Qed.

(** The loop reads its collaborators only through the two transforms. *)
Lemma rkf_loop_transforms (ext ext' : Externals R) (self : NCGL R)
    (buf : Buffers R) (dt tol : R) (S : list Z) (times : list nat)
    (l : Loop) :
  fftn ext' = fftn ext -> ifftn ext' = ifftn ext ->
  rkf_loop ext' self buf dt tol S times l
  = rkf_loop ext self buf dt tol S times l.
Proof.
  destruct ext as [f i r n1 n3], ext' as [f' i' r' n1' n3'].
  cbn [fftn ifftn]; intros -> ->; reflexivity.
Qed.

Lemma getInitialCondition_draws (ext ext' : Externals R) (self : NCGL R)
    (log : list event) :
  rand ext' = rand ext ->
  getInitialCondition ext' self log = getInitialCondition ext self log.
Proof.
  destruct ext as [f i r n1 n3], ext' as [f' i' r' n1' n3'].
  cbn [rand]; intros ->; reflexivity.
Qed.

(** X14: in exact arithmetic, a run with [sigma_r = 0] and a noise type
    other than ['diffusive'] does not depend on the noise generator: two
    generators that honour the requested shape give the same states, the
    same times and the same trace. *)
Theorem solveRKF45_without_noise_strength :
  forall (ext ext' : Externals R) (self : NCGL R) (dt : R) (ntimes : nat)
         (stepsave : list Z) (tol : R) (log : list event),
    ext_contract ext -> ext_contract ext' ->
    fftn ext' = fftn ext -> ifftn ext' = ifftn ext -> rand ext' = rand ext ->
    sigma_r self = 0%R -> noiseType self <> "diffusive"%string ->
    ic self = "r"%string -> (2 <= msize self)%Z ->
    (2 <= R_trunc (noiseSpeed self * IZR (Z.of_nat ntimes)))%Z ->
    (0 < dt)%R -> (0 < tol)%R ->
    solveRKF45 ext' self dt ntimes stepsave tol log
    = solveRKF45 ext self dt ntimes stepsave tol log.
Proof.
  intros ext ext' self dt ntimes stepsave tol log Hext Hext' Hf Hi Hr Hs Hty
    Hic Hm Hfr Hdt Htol.
  apply String.eqb_neq in Hty.
  set (frames := R_trunc (noiseSpeed self * IZR (Z.of_nat ntimes))) in *.
  unfold solveRKF45, bindM.
  rewrite (getInitialCondition_draws ext ext' self log Hr).
  destruct (getInitialCondition_shape ext self log Hext Hic)
    as (state0 & -> & Hst0); [lia |].
  set (log1 := log ++ [EvRand (Z.to_nat (msize self ^ 2));
                       EvRand (Z.to_nat (msize self ^ 2))]) in *.
  set (exponent := match dict_get (noiseArgs self) "beta" with
                   | Some b => b | None => 2%R end).
  set (std := match dict_get (noiseArgs self) "std" with
              | Some s => s | None => ratio 1 100 end).
  destruct (proj1 (proj2 Hext) (length log1) exponent frames (msize self) std)
    as (noise & Hnoise & Hlen & Hshape); try lia.
  destruct (proj1 (proj2 Hext') (length log1) exponent frames (msize self) std)
    as (noise' & Hnoise' & Hlen' & Hshape'); try lia.
  destruct (np_gradient_frames_ok (Z.to_nat (msize self)) noise)
    as (rate & Hrate & Hlr & Hsr); try lia; try exact Hshape.
  destruct (np_gradient_frames_ok (Z.to_nat (msize self)) noise')
    as (rate' & Hrate' & Hlr' & Hsr'); try lia; try exact Hshape'.
  unfold liftM, retM, request_noise3; cbn [truncZ mul ofZ Num_R].
  fold frames exponent std log1; rewrite Hnoise, Hnoise'; cbv iota beta.
  rewrite Hrate, Hrate'; cbv iota beta.
  rewrite (rkf_loop_transforms ext ext' self _ dt tol stepsave _ _ Hf Hi).
  set (buf := {| nr1 := rate; nr2 := noise;
                 maxTime := (IZR (Z.of_nat ntimes + 2) * dt)%R |}).
  set (buf' := {| nr1 := rate'; nr2 := noise';
                  maxTime := (IZR (Z.of_nat ntimes + 2) * dt)%R |}).
  assert (Hmax : (0 < maxTime buf)%R).
  { cbn [maxTime buf]; apply Rmult_lt_0_compat; [apply IZR_lt; lia | exact Hdt]. }
  assert (Hbuf : good_buffers (Z.to_nat (msize self)) (length noise) buf).
  { repeat split; cbn [nr1 nr2 buf]; assumption. }
  assert (Hbuf' : good_buffers (Z.to_nat (msize self)) (length noise') buf').
  { repeat split; cbn [nr1 nr2 buf']; assumption. }
  rewrite (rkf_loop_noise_free ext self buf buf' (Z.to_nat (msize self))
             (length noise) (length noise') Hext ltac:(lia) ltac:(lia)
             ltac:(lia) Hbuf Hbuf' Hmax eq_refl Hs Hty dt tol stepsave ntimes
             Hdt Htol 0%nat state0 0%R [] [state0] Hst0).
  - reflexivity.
  - lra.
  - cbn [maxTime buf]; rewrite plus_IZR, <- INR_IZR_INZ.
    pose proof (pos_INR ntimes); nra.
Qed.

Lemma solveRKF45_without_noise_strength_witness :
  solveRKF45 ext_R_silent scenario (1 / 100)%R 10 [0; 5; 9]%Z (1 / 10000)%R []
  = solveRKF45 ext_R scenario (1 / 100)%R 10 [0; 5; 9]%Z (1 / 10000)%R [].
Proof.
  apply (solveRKF45_without_noise_strength ext_R ext_R_silent scenario
           (1 / 100)%R 10 [0; 5; 9]%Z (1 / 10000)%R []
           ext_R_contract ext_R_silent_contract eq_refl eq_refl eq_refl
           eq_refl).
  - discriminate.
  - reflexivity.
  - cbn; lia.
  - rewrite scenario_frames; lia.
  - lra.
  - lra.
Defined.
